(** * rumble: a stepper-motor axis driven through a LabJack T4

    Shallow embedding of the [Motor] class of [rumble.py] and the
    properties of its motion, homing, clock and configuration code.

    Conventions of the embedding.
    - Python integers are [Z]; Python floats are idealised as rationals
      [Q] (no rounding, no infinities); a value that may be either is a
      [num], and [int] is Python's [int()] (truncation toward zero).
    - The LabJack is an environment [hw]: what a register reads is a
      function of everything that happened on the link so far.  Reads,
      writes and sleeps are recorded in an I/O log, newest event first.
      Register values are integer valued.  The link itself never fails.
    - A method is a function from the world (the motor object and the
      I/O log) to an outcome and a new world.  An exception keeps the
      mutations made before it was raised, as in Python. *)

From Stdlib Require Import ZArith QArith Qround Qabs Qfield Lia Lqa List.
From stdpp Require Import base gmap strings pretty.

Set Warnings "-clear-no-such-hyp".

Local Open Scope string_scope.
Local Open Scope Z_scope.

(** ** Numbers *)

Inductive num : Type :=
| Int (z : Z)
| Float (q : Q).

(** [int(x)] on a float truncates toward zero. *)
Definition trunc (q : Q) : Z := Z.quot (Qnum q) (Zpos (Qden q)).

Definition int (x : num) : Z :=
  match x with
  | Int z => z
  | Float q => trunc q
  end.

Definition num_Q (x : num) : Q :=
  match x with
  | Int z => inject_Z z
  | Float q => q
  end.

(** [int(b)] for a bool. *)
Definition bool_int (b : bool) : Z := if b then 1 else 0.

(** [x - n] for a number [x] and an integer [n]. *)
Definition num_sub_int (x : num) (n : Z) : num :=
  match x with
  | Int z => Int (z - n)
  | Float q => Float (q - inject_Z n)
  end.

Definition Qeqb (x y : Q) : bool := Qnum x * Zpos (Qden y) =? Qnum y * Zpos (Qden x).
Definition Qltb (x y : Q) : bool := Qnum x * Zpos (Qden y) <? Qnum y * Zpos (Qden x).
Definition Qleb (x y : Q) : bool := Qnum x * Zpos (Qden y) <=? Qnum y * Zpos (Qden x).

(** ** Exceptions and outcomes *)

Inductive exn : Type :=
| Exception (msg : string)
| TypeError
| ValueError
| KeyError
| ZeroDivisionError.

Inductive result (A : Type) : Type :=
| Ok (a : A)
| Raise (e : exn).
Arguments Ok {A} a.
Arguments Raise {A} e.

#[global] Instance result_ret : MRet result := fun A a => Ok a.
#[global] Instance result_bind : MBind result := fun A B f r =>
  match r with
  | Ok a => f a
  | Raise e => Raise e
  end.

(** True division [x / y]. *)
Definition py_div (x y : Q) : result Q :=
  if Qeqb y 0 then Raise ZeroDivisionError else Ok (x / y)%Q.

(** ** The motor object, the I/O log and the world *)

Record Motor : Type := mkMotor {
  invert : bool;
  dir_pin : Z;
  dir_reg : string;
  pulse_pin : Z;
  pulse_reg : string;
  home_pin : Z;
  home_reg : string;
  counts : Z;
  cal_zero : Q;
  cal_slope : Q;
  cal_units : string;
  lim_upper : option Z;
  lim_lower : option Z
}.

(** [Motor.__init__]; the handle is the environment [hw] below. *)
Definition Motor_init : Motor :=
  {| invert := false;
     dir_pin := -1; dir_reg := "";
     pulse_pin := -1; pulse_reg := "";
     home_pin := -1; home_reg := "";
     counts := 0;
     cal_zero := 0; cal_slope := 1; cal_units := "counts";
     lim_upper := None; lim_lower := None |}.

Definition set_counts (c : Z) (m : Motor) : Motor :=
  mkMotor (invert m) (dir_pin m) (dir_reg m) (pulse_pin m) (pulse_reg m)
          (home_pin m) (home_reg m) c (cal_zero m) (cal_slope m) (cal_units m)
          (lim_upper m) (lim_lower m).

Definition set_invert (b : bool) (m : Motor) : Motor :=
  mkMotor b (dir_pin m) (dir_reg m) (pulse_pin m) (pulse_reg m)
          (home_pin m) (home_reg m) (counts m) (cal_zero m) (cal_slope m)
          (cal_units m) (lim_upper m) (lim_lower m).

Definition set_dir (p : Z) (r : string) (m : Motor) : Motor :=
  mkMotor (invert m) p r (pulse_pin m) (pulse_reg m)
          (home_pin m) (home_reg m) (counts m) (cal_zero m) (cal_slope m)
          (cal_units m) (lim_upper m) (lim_lower m).

Definition set_pulse (p : Z) (r : string) (m : Motor) : Motor :=
  mkMotor (invert m) (dir_pin m) (dir_reg m) p r
          (home_pin m) (home_reg m) (counts m) (cal_zero m) (cal_slope m)
          (cal_units m) (lim_upper m) (lim_lower m).

Definition set_home (p : Z) (r : string) (m : Motor) : Motor :=
  mkMotor (invert m) (dir_pin m) (dir_reg m) (pulse_pin m) (pulse_reg m)
          p r (counts m) (cal_zero m) (cal_slope m)
          (cal_units m) (lim_upper m) (lim_lower m).

Definition set_cal_slope (q : Q) (m : Motor) : Motor :=
  mkMotor (invert m) (dir_pin m) (dir_reg m) (pulse_pin m) (pulse_reg m)
          (home_pin m) (home_reg m) (counts m) (cal_zero m) q
          (cal_units m) (lim_upper m) (lim_lower m).

Definition set_cal_zero (q : Q) (m : Motor) : Motor :=
  mkMotor (invert m) (dir_pin m) (dir_reg m) (pulse_pin m) (pulse_reg m)
          (home_pin m) (home_reg m) (counts m) q (cal_slope m)
          (cal_units m) (lim_upper m) (lim_lower m).

Definition set_cal_units (u : string) (m : Motor) : Motor :=
  mkMotor (invert m) (dir_pin m) (dir_reg m) (pulse_pin m) (pulse_reg m)
          (home_pin m) (home_reg m) (counts m) (cal_zero m) (cal_slope m)
          u (lim_upper m) (lim_lower m).

Definition set_lim_upper_field (l : option Z) (m : Motor) : Motor :=
  mkMotor (invert m) (dir_pin m) (dir_reg m) (pulse_pin m) (pulse_reg m)
          (home_pin m) (home_reg m) (counts m) (cal_zero m) (cal_slope m)
          (cal_units m) l (lim_lower m).

Definition set_lim_lower_field (l : option Z) (m : Motor) : Motor :=
  mkMotor (invert m) (dir_pin m) (dir_reg m) (pulse_pin m) (pulse_reg m)
          (home_pin m) (home_reg m) (counts m) (cal_zero m) (cal_slope m)
          (cal_units m) (lim_upper m) l.

Inductive event : Type :=
| EvRead (reg : string) (v : Z)
| EvWrite (reg : string) (v : Z)
| EvSleep (t : Q).

Record world : Type := mkWorld {
  self : Motor;
  io : list event
}.

Definition M (A : Type) : Type := world -> result A * world.

#[global] Instance M_ret : MRet M := fun A a w => (Ok a, w).
#[global] Instance M_bind : MBind M := fun A B f c w =>
  match c w with
  | (Ok a, w') => f a w'
  | (Raise e, w') => (Raise e, w')
  end.

Definition raise {A : Type} (e : exn) : M A := fun w => (Raise e, w).

Definition lift {A : Type} (r : result A) : M A := fun w => (r, w).

Definition get_self : M Motor := fun w => (Ok (self w), w).

Definition modify_self (f : Motor -> Motor) : M unit :=
  fun w => (Ok tt, mkWorld (f (self w)) (io w)).

(** The register writes of a log, oldest first. *)
Definition writes (l : list event) : list (string * Z) :=
  rev (omap (fun e => match e with EvWrite r v => Some (r, v) | _ => None end) l).

(** The values written to one register, oldest first. *)
Definition written_to (reg : string) (l : list event) : list Z :=
  snd <$> filter (fun p => fst p = reg) (writes l).

(** ** Arithmetic used by the methods *)

(** [x << n]; Python refuses a negative shift count. *)
Definition py_shl (x n : Z) : result Z :=
  if n <? 0 then Raise ValueError else Ok (Z.shiftl x n).

(** The pulse rate [80e6 / divisor / roll] of [get_clock_hz]. *)
Definition clock_hz (roll divisor : Z) : result Q :=
  x ← py_div 80000000 (inject_Z divisor);
  py_div x (inject_Z roll).

(** The loop of [set_clock_hz]:
      while roll > 0xFFFFFFFF: roll >>= 1; divisor <<= 1
    The fuel bounds the number of turns; [clock_settings] below passes
    the bit length of [roll], which the loop never uses up. *)
Fixpoint set_clock_hz_loop (fuel : nat) (roll divisor : Z) : Z * Z :=
  if roll >? 0xFFFFFFFF then
    match fuel with
    | O => (roll, divisor)
    | S fuel' => set_clock_hz_loop fuel' (Z.shiftr roll 1) (Z.shiftl divisor 1)
    end
  else (roll, divisor).

(** The roll and divisor that [set_clock_hz(rate)] hands to [set_clock]. *)
Definition clock_settings (rate : Q) : result (Z * Z) :=
  q ← py_div 80000000 (Qabs rate);
  let roll := trunc q in
  let divisor := 1 in
  Ok (set_clock_hz_loop (Z.to_nat (Z.log2 roll)) roll divisor).

(** The limit clamp of [increment]: the direction is [value > 0]; a
    positive move is capped by the upper limit, any other move by the
    lower limit. *)
Definition clamp (m : Motor) (value : Z) : Z :=
  if value >? 0 then
    match lim_upper m with
    | Some u => Z.min value (u - counts m)
    | None => value
    end
  else
    match lim_lower m with
    | Some l => Z.max value (l - counts m)
    | None => value
    end.

(** [get_cal]: the position in calibrated units at [c] counts. *)
Definition to_physical (m : Motor) (c : Z) : Q :=
  (cal_slope m * (inject_Z c - cal_zero m))%Q.

Definition get_cal (m : Motor) : Q := to_physical m (counts m).

(** The conversion of [go_cal] and of the limit setters:
    [target / cal_slope + cal_zero]. *)
Definition to_counts (m : Motor) (target : Q) : result Q :=
  x ← py_div target (cal_slope m);
  Ok (x + cal_zero m)%Q.

(** [get_lim_state]. *)
Definition get_lim_state (m : Motor) : bool :=
  if match lim_lower m with Some l => counts m <=? l | None => false end then true
  else if match lim_upper m with Some u => counts m >=? u | None => false end then true
  else false.

(** ** The methods that talk to the device *)

Section Device.

(** What a register reads, given the I/O log so far. *)
Variable hw : list event -> string -> Z.

Definition eReadName (name : string) : M Z := fun w =>
  let v := hw (io w) name in
  (Ok v, mkWorld (self w) (EvRead name v :: io w)).

Definition eWriteName (name : string) (v : Z) : M unit := fun w =>
  (Ok tt, mkWorld (self w) (EvWrite name v :: io w)).

(** [time.sleep(t)]; a negative length is refused. *)
Definition time_sleep (t : Q) : M unit := fun w =>
  if Qltb t 0 then (Raise ValueError, w)
  else (Ok tt, mkWorld (self w) (EvSleep t :: io w)).

Definition get_clock : M (Z * Z) :=
  divisor ← eReadName "DIO_EF_CLOCK0_DIVISOR";
  roll ← eReadName "DIO_EF_CLOCK0_ROLL_VALUE";
  mret (roll, divisor).

Definition get_clock_hz : M Q :=
  '(roll, divisor) ← get_clock;
  lift (clock_hz roll divisor).

Definition set_clock (roll divisor : num) : M unit :=
  let roll := int roll in
  let divisor := int divisor in
  eWriteName "DIO_EF_CLOCK0_ENABLE" 0;;
  eWriteName "DIO_EF_CLOCK0_ROLL_VALUE" roll;;
  eWriteName "DIO_EF_CLOCK0_DIVISOR" divisor;;
  eWriteName "DIO_EF_CLOCK0_ENABLE" 1.

Definition set_clock_hz (rate : Q) : M unit :=
  '(roll, divisor) ← lift (clock_settings rate);
  set_clock (Int roll) (Int divisor).

Definition set_pins (dir_pin pulse_pin home_pin : num) (invert : bool) : M unit :=
  let dir_pin := int dir_pin in
  modify_self (set_dir dir_pin ("DIO" +:+ pretty dir_pin));;
  let pulse_pin := int pulse_pin in
  modify_self (set_pulse pulse_pin ("DIO" +:+ pretty pulse_pin +:+ "_EF_CONFIG_C"));;
  modify_self (set_invert invert);;
  iomask ← eReadName "DIO_DIRECTION";
  bit ← lift (py_shl 1 pulse_pin);
  let iomask := Z.lor iomask bit in
  bit ← lift (py_shl 1 dir_pin);
  let iomask := Z.lor iomask bit in
  iomask ←
    (if Qleb 0 (num_Q home_pin) then
       let home_pin := int home_pin in
       modify_self (set_home home_pin ("DIO" +:+ pretty home_pin));;
       bit ← lift (py_shl 1 home_pin);
       mret (Z.land iomask (Z.lxor 0xFFFFFFFF bit))
     else
       modify_self (set_home (-1) "");;
       mret iomask);
  '(roll, divisor) ← get_clock;
  eWriteName "DIO_ANALOG_ENABLE" 0x0F;;
  eWriteName "DIO_DIRECTION" iomask;;
  m ← get_self;
  eWriteName (dir_reg m) 0;;
  let dio := "DIO" +:+ pretty pulse_pin in
  eWriteName (dio +:+ "_EF_ENABLE") 0;;
  eWriteName (dio +:+ "_EF_INDEX") 2;;
  eWriteName (dio +:+ "_EF_CONFIG_B") 0;;
  eWriteName (dio +:+ "_EF_CONFIG_A") (roll / 2);;
  eWriteName (dio +:+ "_EF_CONFIG_C") 1;;
  eWriteName dio 0;;
  eWriteName (dio +:+ "_EF_ENABLE") 1;;
  eWriteName (dir_reg m) 1;;
  eWriteName (pulse_reg m) 1.

Definition increment (value : num) (block : bool) : M unit :=
  let value := int value in
  let direction := value >? 0 in
  m ← get_self;
  let value := clamp m value in
  let direction := if invert m then negb direction else direction in
  eWriteName (dir_reg m) (bool_int direction);;
  eWriteName (pulse_reg m) (Z.abs value);;
  modify_self (set_counts (counts m + value));;
  if block then
    hz ← get_clock_hz;
    t ← lift (py_div (inject_Z (Z.abs value)) hz);
    time_sleep t
  else mret tt.

Definition increment_cal (value : Q) (block : bool) : M unit :=
  m ← get_self;
  value ← lift (py_div value (cal_slope m));
  increment (Float value) block.

Definition go (target : num) (block : bool) : M unit :=
  m ← get_self;
  increment (num_sub_int target (counts m)) block.

Definition go_cal (target : Q) : M unit :=
  m ← get_self;
  c ← lift (to_counts m target);
  go (Float c) false.

(** The [for] loop of [home]: [n] tries are left. *)
Fixpoint home_loop (n : nat) (increment_ : num) (initial : Z) : M bool :=
  match n with
  | O => mret false
  | S n' =>
      increment increment_ true;;
      m ← get_self;
      level ← eReadName (home_reg m);
      if negb (level =? initial) then mret true
      else home_loop n' increment_ initial
  end.

Definition home (increment_ : num) (max_tries : Z) : M bool :=
  m ← get_self;
  if String.eqb (home_reg m) "" then
    raise (Exception "The home channel was not configured.")
  else
    initial ← eReadName (home_reg m);
    home_loop (Z.to_nat max_tries) increment_ initial.

Definition set_cal (zero slope : Q) (units : string) : M unit :=
  if Qleb slope 0 then
    raise (Exception "The slope MUST be a positive (non-zero) number.")
  else
    modify_self (set_cal_zero zero);;
    modify_self (set_cal_slope slope);;
    modify_self (set_cal_units units).

End Device.

(** ** Configuration records: [save] and [load]

    A configuration record is the JSON object of the file: a map from
    keys to JSON scalars.  Opening the file and parsing it are outside
    the embedding; [load] starts from the parsed object.  The motor
    attributes and the arguments of the methods are typed here, so a
    value is converted where [load] hands it on: a value of another JSON
    type than its attribute, which Python would store and trip over at
    the next use, is refused there, and a string in a numeric field is
    refused by [int()] (strings of digits are not parsed here).  The
    messages of the two exceptions of [load] end with the [repr] of a
    set, whose order is not fixed; the embedding keeps the fixed part. *)

Inductive jvalue : Type :=
| JNull
| JBool (b : bool)
| JInt (z : Z)
| JFloat (q : Q)
| JStr (s : string).

(** The value as a number, for [int()] and comparisons. *)
Definition jnum (v : jvalue) : result num :=
  match v with
  | JInt z => Ok (Int z)
  | JFloat q => Ok (Float q)
  | JBool b => Ok (Int (bool_int b))
  | JNull => Raise TypeError
  | JStr _ => Raise ValueError
  end.

(** [bool(v)]. *)
Definition jbool (v : jvalue) : bool :=
  match v with
  | JNull => false
  | JBool b => b
  | JInt z => negb (z =? 0)
  | JFloat q => negb (Qeqb q 0)
  | JStr s => negb (String.eqb s "")
  end.

Definition jQ (v : jvalue) : result Q :=
  x ← jnum v; Ok (num_Q x).

Definition jlimit (v : jvalue) : result (option Z) :=
  match v with
  | JNull => Ok None
  | JInt z => Ok (Some z)
  | _ => Raise TypeError
  end.

Definition jstr (v : jvalue) : result string :=
  match v with
  | JStr s => Ok s
  | _ => Raise TypeError
  end.

Definition limit_json (l : option Z) : jvalue :=
  match l with
  | Some z => JInt z
  | None => JNull
  end.

(** The dictionary [config] that [save] builds, in the order of the
    source. *)
Definition save_config (m : Motor) (roll divisor : Z) : list (string * jvalue) :=
  [ ("clock_roll", JInt roll);
    ("clock_divisor", JInt divisor);
    ("dir_pin", JInt (dir_pin m));
    ("pulse_pin", JInt (pulse_pin m));
    ("home_pin", JInt (home_pin m));
    ("invert", JBool (invert m));
    ("cal_slope", JFloat (cal_slope m));
    ("cal_zero", JFloat (cal_zero m));
    ("cal_units", JStr (cal_units m));
    ("lim_upper", limit_json (lim_upper m));
    ("lim_lower", limit_json (lim_lower m)) ].

(** [config[key]]. *)
Definition item (config : gmap string jvalue) (key : string) : result jvalue :=
  match config !! key with
  | Some v => Ok v
  | None => Raise KeyError
  end.

Definition mandatory : gset string :=
  {[ "clock_roll"; "clock_divisor"; "dir_pin"; "pulse_pin" ]}.

Definition optional : gset string :=
  {[ "home_pin"; "cal_slope"; "cal_zero"; "cal_units";
     "lim_upper"; "lim_lower"; "invert" ]}.

Definition allowed : gset string := optional ∪ mandatory.

(** [any(s)] for a set of strings: some element is true, that is, is
    not the empty string. *)
Definition any (s : gset string) : bool :=
  existsb (fun k => negb (String.eqb k "")) (elements s).

Section Config.

Variable hw : list event -> string -> Z.

(** [save]: the record is built, then [json.dump(config, indent=4)] is
    called without the file and raises [TypeError]. *)
Definition save (filename : string) : M unit :=
  '(roll, divisor) ← get_clock hw;
  m ← get_self;
  let config := save_config m roll divisor in
  raise TypeError.

(** Apply [f] to the converted value of an optional key, if present. *)
Definition when_present {A : Type} (config : gmap string jvalue) (key : string)
    (conv : jvalue -> result A) (f : A -> Motor -> Motor) : M unit :=
  match config !! key with
  | Some v => x ← lift (conv v); modify_self (f x)
  | None => mret tt
  end.

Definition load (config : gmap string jvalue) : M unit :=
  let has := dom config in
  let missing := mandatory ∖ has in
  let illegal := has ∖ allowed in
  if any missing then raise (Exception "Missing mandatory parameters: ")
  else if any illegal then raise (Exception "Illegal configuration parameters: ")
  else
    roll ← lift (item config "clock_roll");
    divisor ← lift (item config "clock_divisor");
    r ← lift (jnum roll); d ← lift (jnum divisor);
    set_clock r d;;
    dir_pin ← lift (item config "dir_pin");
    pulse_pin ← lift (item config "pulse_pin");
    let home_pin :=
      match config !! "home_pin" with
      | Some v => v
      | None => JInt (-1)
      end in
    set_clock r d;;
    dp ← lift (jnum dir_pin); pp ← lift (jnum pulse_pin); hp ← lift (jnum home_pin);
    set_pins hw dp pp hp false;;
    when_present config "invert" (fun v => Ok (jbool v)) set_invert;;
    when_present config "cal_slope" jQ set_cal_slope;;
    when_present config "cal_zero" jQ set_cal_zero;;
    when_present config "cal_units" jstr set_cal_units;;
    when_present config "lim_upper" jlimit set_lim_upper_field;;
    when_present config "lim_lower" jlimit set_lim_lower_field.

End Config.

(** ** Auxiliary definitions for the statements *)

Section Aux.

Variable hw : list event -> string -> Z.

(** The world once [increment] has commanded the pulses and updated the
    position, before the optional wait. *)
Definition commanded (value : num) (w : world) : world :=
  let m := self w in
  let delta := clamp m (int value) in
  let direction := if invert m then negb (int value >? 0) else int value >? 0 in
  mkWorld (set_counts (counts m + delta) m)
          (EvWrite (pulse_reg m) (Z.abs delta)
             :: EvWrite (dir_reg m) (bool_int direction) :: io w).

(** The wait of a blocking move: read the clock, sleep. *)
Definition wait (pulses : Z) : M unit :=
  hz ← get_clock_hz hw;
  t ← lift (py_div (inject_Z pulses) hz);
  time_sleep t.

(** One try of [home]: a blocking move, then the home pin is read
    again.  [attempt] is the world after it. *)
Definition attempt (increment_ : num) (w : world) : world :=
  snd ((increment hw increment_ true;;
        m ← get_self;
        eReadName hw (home_reg m)) w).

Fixpoint after_tries (k : nat) (increment_ : num) (w : world) : world :=
  match k with
  | O => w
  | S k' => after_tries k' increment_ (attempt increment_ w)
  end.

(** The value of the newest event of the log when it is a read. *)
Definition last_read (w : world) : Z :=
  match io w with
  | EvRead _ v :: _ => v
  | _ => 0
  end.

(** The level of the home pin read at the end of try [k]. *)
Definition level_at (k : nat) (increment_ : num) (w : world) : Z :=
  last_read (after_tries k increment_ w).

(** The clock registers read positive values whatever happened before:
    the clock has been configured and stays so. *)
Definition clock_ok : Prop :=
  forall l, 0 < hw l "DIO_EF_CLOCK0_DIVISOR" /\ 0 < hw l "DIO_EF_CLOCK0_ROLL_VALUE".

End Aux.

(** The number of completed waits in a log: one per blocking move. *)
Fixpoint waits (l : list event) : nat :=
  match l with
  | [] => O
  | EvSleep _ :: l' => S (waits l')
  | _ :: l' => waits l'
  end.

(** ** A simulated T4 for the scenarios

    The clock is fixed at 1 kHz (divisor 1, roll 80000).  The home
    switch on DIO8 changes level once 15 pulses have been sent to the
    pulse output on DIO6.  Every other register reads 0. *)

Definition pulses_sent (l : list event) : Z :=
  foldr Z.add 0 (written_to "DIO6_EF_CONFIG_C" l).

Definition sim_hw (l : list event) (name : string) : Z :=
  if String.eqb name "DIO_EF_CLOCK0_DIVISOR" then 1
  else if String.eqb name "DIO_EF_CLOCK0_ROLL_VALUE" then 80000
  else if String.eqb name "DIO8" then (if 15 <=? pulses_sent l then 1 else 0)
  else 0.

(** A fresh motor on a silent link. *)
Definition fresh : world := mkWorld Motor_init [].

(** The polarizer of [global_init]: direction on DIO4, pulses on DIO6,
    home switch on DIO8. *)
Definition polarizer : world :=
  snd (set_pins sim_hw (Int 4) (Int 6) (Int 8) false fresh).

(** The polarizer at 90 counts with an upper limit of 100. *)
Definition near_upper : world :=
  mkWorld (set_lim_upper_field (Some 100) (set_counts 90 (self polarizer)))
          (io polarizer).

(** The polarizer at 90 counts with a lower limit of 100. *)
Definition below_lower : world :=
  mkWorld (set_lim_lower_field (Some 100) (set_counts 90 (self polarizer)))
          (io polarizer).

(** A motor calibrated in degrees, 400 pulses per turn:
    [set_cal(0, 360/400, 'deg')]. *)
Definition in_degrees : world :=
  snd (set_cal 0 (9 # 10) "deg" polarizer).

(** ** Predicates for the clock *)

(** The rate realized by [roll] and [divisor] is within one quantization
    step of the target [f]: the rate is defined and not below [f], and
    the next lower rate of that divisor, with one more count of roll, is
    below [f]. *)
Definition within_one_step (f : Q) (roll divisor : Z) : Prop :=
  exists F, clock_hz roll divisor = Ok F /\
            (80000000 / inject_Z divisor / inject_Z (roll + 1) < f)%Q /\
            (f <= F)%Q.

(** ** Predicates for loading *)

(** A computation that never raises [Exception], the class that the
    checks of the program raise by themselves. *)
Definition quiet {A : Type} (c : M A) : Prop :=
  forall w msg, fst (c w) <> Raise (Exception msg).

Definition rquiet {A : Type} (r : result A) : Prop :=
  forall msg, r <> Raise (Exception msg).

(** ** Configuration records of the scenarios *)

(** The mandatory fields of the polarizer at 1 kHz. *)
Definition base_config : gmap string jvalue :=
  {[ "clock_roll" := JInt 80000; "clock_divisor" := JInt 1;
     "dir_pin" := JInt 4; "pulse_pin" := JInt 6 ]}.

(** The same without [pulse_pin]. *)
Definition config_without_pulse_pin : gmap string jvalue :=
  delete "pulse_pin" base_config.

(** The same with an unknown field [foo]. *)
Definition config_with_foo : gmap string jvalue :=
  <["foo" := JInt 1]> base_config.

(** The same with an unknown field whose key is the empty string, as in
    the JSON text [{"": 0, "clock_roll": 80000, ...}]. *)
Definition config_with_empty_key : gmap string jvalue :=
  <["" := JInt 0]> base_config.

(** ** Method calls, invariants and a latching device *)

(** The position respects every limit that is set. *)
Definition in_limits (m : Motor) : Prop :=
  (forall l, lim_lower m = Some l -> l <= counts m) /\
  (forall u, lim_upper m = Some u -> counts m <= u).

(** The register names agree with the pin numbers: a role is either as
    [__init__] left it or named after its pin, and a bound home pin is
    not negative. *)
Definition names_ok (m : Motor) : Prop :=
  ((dir_pin m = -1 /\ dir_reg m = "") \/ dir_reg m = "DIO" +:+ pretty (dir_pin m)) /\
  ((pulse_pin m = -1 /\ pulse_reg m = "") \/
     pulse_reg m = "DIO" +:+ pretty (pulse_pin m) +:+ "_EF_CONFIG_C") /\
  ((home_pin m = -1 /\ home_reg m = "") \/
     (0 <= home_pin m /\ home_reg m = "DIO" +:+ pretty (home_pin m))).

(** A property of the motor object that a computation keeps, whether it
    returns or raises. *)
Definition keeps {A : Type} (P : Motor -> Prop) (c : M A) : Prop :=
  forall w, P (self w) -> P (self (snd (c w))).

(** A property that the position update of [increment] keeps. *)
Definition motion_closed (P : Motor -> Prop) : Prop :=
  forall m v, P m -> P (set_counts (counts m + clamp m v) m).

(** The calls a user of the class can make. *)
Inductive call : Type :=
| Call_get_clock
| Call_get_clock_hz
| Call_set_clock (roll divisor : num)
| Call_set_clock_hz (rate : Q)
| Call_set_pins (dir_pin pulse_pin home_pin : num) (invert : bool)
| Call_home (increment_ : num) (max_tries : Z)
| Call_increment (value : num) (block : bool)
| Call_increment_cal (value : Q) (block : bool)
| Call_go (target : num) (block : bool)
| Call_go_cal (target : Q)
| Call_set_cal (zero slope : Q) (units : string)
| Call_save (filename : string)
| Call_load (config : gmap string jvalue).

(** The calls that move the motor. *)
Definition is_motion (c : call) : bool :=
  match c with
  | Call_home _ _ | Call_increment _ _ | Call_increment_cal _ _
  | Call_go _ _ | Call_go_cal _ => true
  | _ => false
  end.

Definition is_load (c : call) : bool :=
  match c with
  | Call_load _ => true
  | _ => false
  end.

(** The world after a computation, returned or raised. *)
Definition exec {A : Type} (c : M A) (w : world) : world := snd (c w).

Section Calls.

Variable hw : list event -> string -> Z.

Definition run_call (c : call) : world -> world :=
  match c with
  | Call_get_clock => exec (get_clock hw)
  | Call_get_clock_hz => exec (get_clock_hz hw)
  | Call_set_clock roll divisor => exec (set_clock roll divisor)
  | Call_set_clock_hz rate => exec (set_clock_hz rate)
  | Call_set_pins d p h i => exec (set_pins hw d p h i)
  | Call_home v n => exec (home hw v n)
  | Call_increment v b => exec (increment hw v b)
  | Call_increment_cal v b => exec (increment_cal hw v b)
  | Call_go t b => exec (go hw t b)
  | Call_go_cal t => exec (go_cal hw t)
  | Call_set_cal zero slope units => exec (set_cal zero slope units)
  | Call_save filename => exec (save hw filename)
  | Call_load config => exec (load hw config)
  end.

(** A session: the calls are made one after the other, an exception of
    one being caught before the next. *)
Definition run_calls (cs : list call) (w : world) : world :=
  fold_left (fun w c => run_call c w) cs w.

End Calls.

(** The newest value written to a register, if any. *)
Fixpoint last_write (name : string) (l : list event) : option Z :=
  match l with
  | [] => None
  | EvWrite r v :: l' => if String.eqb r name then Some v else last_write name l'
  | _ :: l' => last_write name l'
  end.

(** A register that reads back the value last written to it. *)
Definition latched (hw : list event -> string -> Z) (name : string) : Prop :=
  forall l v, last_write name l = Some v -> hw l name = v.

(** A device all of whose registers are latches, 0 before any write. *)
Definition latch_hw (l : list event) (name : string) : Z :=
  default 0 (last_write name l).

(** A property of the motor object that does not look at the pins or
    at the inversion flag. *)
Definition pins_blind (P : Motor -> Prop) : Prop :=
  forall m, P m ->
    (forall p r, P (set_dir p r m)) /\ (forall p r, P (set_pulse p r m)) /\
    (forall b, P (set_invert b m)) /\ (forall p r, P (set_home p r m)).

(** A T4 on which nothing was configured: every register reads 0. *)
Definition zero_hw (l : list event) (name : string) : Z := 0.

(** ** The clock during homing *)

Section ClockedTries.

Variable hw : list event -> string -> Z.

(** The clock registers read positive values in the two reads, divisor
    then roll, of a wait that starts in the world [w]. *)
Definition clock_reads_ok (w : world) : Prop :=
  let d := hw (io w) "DIO_EF_CLOCK0_DIVISOR" in
  0 < d /\
  0 < hw (EvRead "DIO_EF_CLOCK0_DIVISOR" d :: io w) "DIO_EF_CLOCK0_ROLL_VALUE".

(** The clock registers read positive values in the wait of each of the
    first [k] tries of [home] from the world [w]. *)
Definition clocked_tries (k : nat) (increment_ : num) (w : world) : Prop :=
  forall j, (j < k)%nat ->
    clock_reads_ok (commanded increment_ (after_tries hw j increment_ w)).

End ClockedTries.

(** A T4 on the bench: every register reads back the value last
    written to it, 0 before any write, except the home switch on DIO8,
    which changes level once 15 pulses have been sent to the pulse
    output on DIO6. *)
Definition bench_hw (l : list event) (name : string) : Z :=
  if String.eqb name "DIO8" then (if 15 <=? pulses_sent l then 1 else 0)
  else latch_hw l name.

(** The polarizer set up on the bench as [global_init] does: the clock
    at 1 kHz, then the pins. *)
Definition bench : world :=
  snd (set_pins bench_hw (Int 4) (Int 6) (Int 8) false (snd (set_clock_hz 1000 fresh))).

(** ** Relative moves and the software limits *)

Section Moves.

Variable hw : list event -> string -> Z.

Lemma increment_eq value block w :
  increment hw value block w =
  if block then wait hw (Z.abs (clamp (self w) (int value))) (commanded value w)
  else (Ok tt, commanded value w).
Proof. destruct block; reflexivity. Qed.

Lemma wait_self pulses w : self (snd (wait hw pulses w)) = self w.
Proof.
  unfold wait, get_clock_hz, get_clock, eReadName, lift, time_sleep, mbind, M_bind, mret, M_ret.
  cbn.
  destruct (clock_hz _ _) as [hz|e]; cbn; [|reflexivity].
  destruct (py_div _ hz) as [t|e]; cbn; [|reflexivity].
  destruct (Qltb t 0); reflexivity.
Qed.

Lemma increment_self value block w :
  self (snd (increment hw value block w)) = self (commanded value w).
Proof.
  rewrite increment_eq. destruct block; [apply wait_self | reflexivity].
Qed.

Lemma wait_io pulses w : exists l, io (snd (wait hw pulses w)) = (l ++ io w)%list.
Proof.
  unfold wait, get_clock_hz, get_clock, eReadName, lift, time_sleep, mbind, M_bind, mret, M_ret.
  cbn.
  destruct (clock_hz _ _) as [hz|e]; cbn; [|by eexists [_; _]].
  destruct (py_div _ hz) as [t|e]; cbn; [|by eexists [_; _]].
  destruct (Qltb t 0); cbn; [by eexists [_; _] | by eexists [_; _; _]].
Qed.

Lemma increment_io value block w :
  exists l, io (snd (increment hw value block w)) = (l ++ io (commanded value w))%list.
Proof.
  rewrite increment_eq. destruct block; [apply wait_io | by exists []].
Qed.

Lemma increment_counts value block w :
  counts (self (snd (increment hw value block w))) =
  counts (self w) + clamp (self w) (int value).
Proof. rewrite increment_self. reflexivity. Qed.

End Moves.

Section Limits.

Variable hw : list event -> string -> Z.

(** C1.  Whatever the motor state, the requested move and the blocking
    flag, [increment] moves the position by the clamped delta.  For a
    positive move with an upper limit [u] set, the delta applied is the
    smaller of the requested delta and the distance [u - counts] to the
    limit: the move ends at or below the limit, and it is the full
    requested move whenever that ends at or below the limit.  For a
    move that is not positive with a lower limit [l] set, the delta
    applied is the larger of the requested delta and [l - counts]: the
    move ends at or above the limit, and it is the full requested move
    whenever that ends at or above the limit.  When the relevant limit
    is unset the full requested delta is applied.  The direction
    register is sent the direction, inverted when [invert] is set, and
    then the pulse register the magnitude of the delta applied. *)
Theorem increment_clamps (value : num) (block : bool) (w : world) :
  let m := self w in
  let w' := snd (increment hw value block w) in
  let after := counts (self w') in
  (forall u, int value > 0 -> lim_upper m = Some u ->
     after = counts m + Z.min (int value) (u - counts m) /\
     after <= u /\
     (counts m + int value <= u -> after = counts m + int value)) /\
  (forall l, int value <= 0 -> lim_lower m = Some l ->
     after = counts m + Z.max (int value) (l - counts m) /\
     l <= after /\
     (l <= counts m + int value -> after = counts m + int value)) /\
  (int value > 0 -> lim_upper m = None -> after = counts m + int value) /\
  (int value <= 0 -> lim_lower m = None -> after = counts m + int value) /\
  (exists l, io w' =
     (l ++ EvWrite (pulse_reg m) (Z.abs (after - counts m))
        :: EvWrite (dir_reg m)
             (bool_int (if invert m then negb (int value >? 0) else int value >? 0))
        :: io w)%list).
Proof.
  cbv zeta. rewrite increment_counts. unfold clamp.
  split; [|split; [|split; [|split]]].
  - intros u Hpos Hu. rewrite Hu.
    destruct (Z.gtb_spec (int value) 0); [|lia].
    split; [reflexivity|]. split; lia.
  - intros l Hneg Hl. rewrite Hl.
    destruct (Z.gtb_spec (int value) 0); [lia|].
    split; [reflexivity|]. split; lia.
  - intros Hpos Hu. rewrite Hu.
    destruct (Z.gtb_spec (int value) 0); [reflexivity | lia].
  - intros Hneg Hl. rewrite Hl.
    destruct (Z.gtb_spec (int value) 0); [lia | reflexivity].
  - destruct (increment_io hw value block w) as [l Hl].
    exists l. rewrite Hl. unfold commanded, clamp. cbn [io].
    do 3 f_equal. lia.
Qed.

(** C10.  A move of zero counts takes the branch of the moves that are
    not positive, so it is clamped against the lower limit: with the
    lower limit set and the position strictly below it, the position
    becomes exactly the limit, and the pulse register is sent the
    positive distance to it; with the lower limit unset, or the
    position at or above it, the position is unchanged. *)
Theorem increment_zero (value : num) (block : bool) (w : world) :
  int value = 0 ->
  let m := self w in
  let w' := snd (increment hw value block w) in
  (forall l, lim_lower m = Some l -> counts m < l ->
     counts (self w') = l /\
     0 < l - counts m /\
     exists rest, io w' =
       (rest ++ EvWrite (pulse_reg m) (l - counts m)
          :: EvWrite (dir_reg m) (bool_int (invert m)) :: io w)%list) /\
  (lim_lower m = None -> counts (self w') = counts m) /\
  (forall l, lim_lower m = Some l -> l <= counts m -> counts (self w') = counts m).
Proof.
  intros Hz. cbv zeta. rewrite increment_counts.
  destruct (increment_io hw value block w) as [rest Hrest]. rewrite Hrest.
  unfold commanded, clamp. rewrite Hz. cbn [io Z.gtb Z.compare].
  split; [|split].
  - intros l Hl Hlt. rewrite Hl. split; [lia|]. split; [lia|].
    exists rest. do 3 f_equal; [lia|].
    destruct (invert (self w)); reflexivity.
  - intros Hl. rewrite Hl. lia.
  - intros l Hl Hle. rewrite Hl. lia.
Qed.

End Limits.

(** The scenario of C1: at 90 counts with the upper limit at 100, a
    move of 50 is cut to the 10 counts that are left, and ends at 100.
    A move of 5, which fits, is applied in full. *)
Lemma increment_clamps_witness :
  lim_upper (self near_upper) = Some 100 /\
  counts (self near_upper) = 90 /\
  counts (self (snd (increment sim_hw (Int 50) false near_upper))) = 100 /\
  counts (self (snd (increment sim_hw (Int 5) false near_upper))) = 95.
Proof.
  destruct (increment_clamps sim_hw (Int 50) false near_upper) as (Hup & _).
  destruct (increment_clamps sim_hw (Int 5) false near_upper) as (Hfit & _).
  cbv zeta in Hup, Hfit.
  assert (Hlim : lim_upper (self near_upper) = Some 100) by reflexivity.
  assert (Hc : counts (self near_upper) = 90) by reflexivity.
  split; [exact Hlim|]. split; [exact Hc|]. split.
  - destruct (Hup 100) as (E & _); [cbn; lia | exact Hlim |].
    rewrite E, Hc. reflexivity.
  - destruct (Hfit 100) as (_ & _ & E); [cbn; lia | exact Hlim |].
    rewrite E; rewrite Hc; cbn; lia.
Defined.

(** The scenario of C10: at 90 counts with the lower limit at 100, a
    move of 0 ends at 100. *)
Lemma increment_zero_witness :
  lim_lower (self below_lower) = Some 100 /\
  counts (self below_lower) = 90 /\
  counts (self (snd (increment sim_hw (Int 0) false below_lower))) = 100.
Proof.
  destruct (increment_zero sim_hw (Int 0) false below_lower eq_refl) as (Hlow & _).
  split; [reflexivity|]. split; [reflexivity|].
  apply (Hlow 100); [reflexivity | vm_compute; reflexivity].
Defined.

Example polarizer_pins :
  self polarizer =
  mkMotor false 4 "DIO4" 6 "DIO6_EF_CONFIG_C" 8 "DIO8" 0 0 1 "counts" None None.
Proof. vm_compute. reflexivity. Qed.

(** ** Rational comparisons *)

Lemma Qeqb_true (x y : Q) : Qeqb x y = true <-> (x == y)%Q.
Proof. unfold Qeqb, Qeq. apply Z.eqb_eq. Qed.

Lemma Qeqb_false (x y : Q) : Qeqb x y = false <-> ~ (x == y)%Q.
Proof. unfold Qeqb, Qeq. apply Z.eqb_neq. Qed.

Lemma Qltb_true (x y : Q) : Qltb x y = true <-> (x < y)%Q.
Proof. unfold Qltb, Qlt. apply Z.ltb_lt. Qed.

Lemma Qltb_false (x y : Q) : Qltb x y = false <-> (y <= x)%Q.
Proof. unfold Qltb, Qle. rewrite Z.ltb_ge. reflexivity. Qed.

Lemma py_div_ok (x y : Q) : ~ (y == 0)%Q -> py_div x y = Ok (x / y)%Q.
Proof. intros H. unfold py_div. apply Qeqb_false in H. rewrite H. reflexivity. Qed.

Lemma py_div_zero (x y : Q) : (y == 0)%Q -> py_div x y = Raise ZeroDivisionError.
Proof. intros H. unfold py_div. apply Qeqb_true in H. rewrite H. reflexivity. Qed.

Lemma inject_Z_pos (z : Z) : 0 < z -> (0 < inject_Z z)%Q.
Proof. intros H. unfold Qlt. cbn. lia. Qed.

Lemma Qdiv_pos (x y : Q) : (0 < x)%Q -> (0 < y)%Q -> (0 < x / y)%Q.
Proof.
  intros Hx Hy. unfold Qdiv. apply Qmult_lt_0_compat; [assumption|].
  apply Qinv_lt_0_compat. assumption.
Qed.

Lemma Qdiv_nonneg (x y : Q) : (0 <= x)%Q -> (0 < y)%Q -> (0 <= x / y)%Q.
Proof.
  intros Hx Hy. unfold Qdiv. apply Qmult_le_0_compat; [assumption|].
  apply Qlt_le_weak, Qinv_lt_0_compat. assumption.
Qed.

Lemma Qpos_neq0 (x : Q) : (0 < x)%Q -> ~ (x == 0)%Q.
Proof. intros H E. rewrite E in H. revert H. apply Qlt_irrefl. Qed.

(** With a configured clock the pulse rate is defined and positive. *)
Lemma clock_hz_pos (roll divisor : Z) :
  0 < roll -> 0 < divisor ->
  clock_hz roll divisor = Ok (80000000 / inject_Z divisor / inject_Z roll)%Q /\
  (0 < 80000000 / inject_Z divisor / inject_Z roll)%Q.
Proof.
  intros Hr Hd. apply inject_Z_pos in Hr, Hd.
  assert (H80 : (0 < 80000000 / inject_Z divisor)%Q) by (apply Qdiv_pos; [reflexivity | assumption]).
  split.
  - unfold clock_hz. rewrite py_div_ok by (apply Qpos_neq0; assumption).
    cbn. apply py_div_ok, Qpos_neq0. assumption.
  - apply Qdiv_pos; assumption.
Qed.

Section Waiting.

Variable hw : list event -> string -> Z.
Hypothesis clock : clock_ok hw.

(** With a configured clock, the wait of a blocking move completes: the
    divisor and the roll are read, and the caller sleeps. *)
Lemma wait_ok (pulses : Z) (w : world) :
  0 <= pulses ->
  exists d r t,
    wait hw pulses w =
    (Ok tt, mkWorld (self w)
              (EvSleep t :: EvRead "DIO_EF_CLOCK0_ROLL_VALUE" r
                 :: EvRead "DIO_EF_CLOCK0_DIVISOR" d :: io w)).
Proof.
  intros Hp.
  unfold wait, get_clock_hz, get_clock, eReadName, lift, time_sleep,
    mbind, M_bind, mret, M_ret. cbn.
  set (d := hw (io w) _). set (r := hw _ "DIO_EF_CLOCK0_ROLL_VALUE").
  destruct (clock_hz_pos r d) as [E Hhz]; [apply clock | apply clock |].
  rewrite E. cbn.
  rewrite py_div_ok by (apply Qpos_neq0; assumption). cbn.
  set (t := (inject_Z pulses / _)%Q).
  assert (Ht : Qltb t 0 = false).
  { apply Qltb_false. apply Qdiv_nonneg; [|assumption].
    unfold Qle. cbn. lia. }
  rewrite Ht. exists d, r, t. reflexivity.
Qed.

End Waiting.

(** ** Homing *)

Section Homing.

Variable hw : list event -> string -> Z.
Hypothesis clock : clock_ok hw.

(** One try runs to completion: it returns the level it read, keeps the
    home register and adds one wait to the log. *)
Lemma attempt_run (v : num) (w : world) :
  (increment hw v true;; m ← get_self; eReadName hw (home_reg m)) w =
    (Ok (level_at hw 1 v w), attempt hw v w) /\
  home_reg (self (attempt hw v w)) = home_reg (self w) /\
  waits (io (attempt hw v w)) = S (waits (io w)).
Proof.
  unfold level_at, after_tries, attempt, last_read.
  unfold mbind, M_bind.
  rewrite increment_eq.
  destruct (wait_ok hw clock (Z.abs (clamp (self w) (int v))) (commanded v w))
    as (d & r & t & E); [lia|].
  rewrite E. cbn. auto.
Qed.

Lemma home_loop_step (n : nat) (v : num) (initial : Z) (w : world) :
  home_loop hw (S n) v initial w =
  if negb (level_at hw 1 v w =? initial) then (Ok true, attempt hw v w)
  else home_loop hw n v initial (attempt hw v w).
Proof.
  destruct (attempt_run v w) as (E & _).
  cbn [home_loop]. unfold mbind, M_bind in E |- *.
  destruct (increment hw v true w) as [[u|e] w1]; [|discriminate E].
  cbn in E |- *. injection E as -> <-.
  destruct (negb _); reflexivity.
Qed.

Lemma level_at_S (k : nat) (v : num) (w : world) :
  level_at hw (S k) v w = level_at hw k v (attempt hw v w).
Proof. reflexivity. Qed.

(** The loop stops with [True] at the first try whose reading differs. *)
Lemma home_loop_found (v : num) (initial : Z) (n k : nat) (w : world) :
  (1 <= k <= n)%nat ->
  (forall j, (1 <= j < k)%nat -> level_at hw j v w = initial) ->
  level_at hw k v w <> initial ->
  home_loop hw n v initial w = (Ok true, after_tries hw k v w).
Proof.
  revert k w. induction n as [|n IH]; intros k w Hk Hbefore Hat; [lia|].
  rewrite home_loop_step.
  destruct k as [|[|k]]; [lia| |].
  - apply Z.eqb_neq in Hat. rewrite Hat. reflexivity.
  - assert (H1 : level_at hw 1 v w = initial) by (apply Hbefore; lia).
    apply Z.eqb_eq in H1. rewrite H1. cbn [negb].
    rewrite (IH (S k)); [reflexivity | lia | | assumption].
    intros j Hj. rewrite <- level_at_S. apply Hbefore. lia.
Qed.

(** The loop returns [False] after [n] tries that all read the initial
    level. *)
Lemma home_loop_exhausted (v : num) (initial : Z) (n : nat) (w : world) :
  (forall j, (1 <= j <= n)%nat -> level_at hw j v w = initial) ->
  home_loop hw n v initial w = (Ok false, after_tries hw n v w).
Proof.
  revert w. induction n as [|n IH]; intros w Hall; [reflexivity|].
  rewrite home_loop_step.
  assert (H1 : level_at hw 1 v w = initial) by (apply Hall; lia).
  apply Z.eqb_eq in H1. rewrite H1. cbn [negb].
  rewrite IH; [reflexivity|].
  intros j Hj. rewrite <- level_at_S. apply Hall. lia.
Qed.

Lemma after_tries_waits (v : num) (k : nat) (w : world) :
  waits (io (after_tries hw k v w)) = (waits (io w) + k)%nat.
Proof.
  revert w. induction k as [|k IH]; intros w; cbn [after_tries]; [lia|].
  rewrite IH. destruct (attempt_run v w) as (_ & _ & E). rewrite E. lia.
Qed.

End Homing.

(** *** Homing when the clock reads well at each try *)

Section HomingAt.

Variable hw : list event -> string -> Z.

Lemma wait_ok_at (pulses : Z) (w : world) :
  clock_reads_ok hw w -> 0 <= pulses ->
  exists d r t,
    wait hw pulses w =
    (Ok tt, mkWorld (self w)
              (EvSleep t :: EvRead "DIO_EF_CLOCK0_ROLL_VALUE" r
                 :: EvRead "DIO_EF_CLOCK0_DIVISOR" d :: io w)).
Proof.
  intros [Hd Hr] Hp.
  unfold wait, get_clock_hz, get_clock, eReadName, lift, time_sleep,
    mbind, M_bind, mret, M_ret. cbn.
  set (d := hw (io w) _) in *. set (r := hw _ "DIO_EF_CLOCK0_ROLL_VALUE") in *.
  destruct (clock_hz_pos r d Hr Hd) as [E Hhz].
  rewrite E. cbn.
  rewrite py_div_ok by (apply Qpos_neq0; assumption). cbn.
  set (t := (inject_Z pulses / _)%Q).
  assert (Ht : Qltb t 0 = false).
  { apply Qltb_false. apply Qdiv_nonneg; [|assumption].
    unfold Qle. cbn. lia. }
  rewrite Ht. exists d, r, t. reflexivity.
Qed.

Lemma attempt_run_at (v : num) (w : world) :
  clock_reads_ok hw (commanded v w) ->
  (increment hw v true;; m ← get_self; eReadName hw (home_reg m)) w =
    (Ok (level_at hw 1 v w), attempt hw v w) /\
  waits (io (attempt hw v w)) = S (waits (io w)).
Proof.
  intros Hclock.
  unfold level_at, after_tries, attempt, last_read.
  unfold mbind, M_bind.
  rewrite increment_eq.
  destruct (wait_ok_at (Z.abs (clamp (self w) (int v))) (commanded v w) Hclock)
    as (d & r & t & E); [lia|].
  rewrite E. cbn. auto.
Qed.

Lemma home_loop_step_at (n : nat) (v : num) (initial : Z) (w : world) :
  clock_reads_ok hw (commanded v w) ->
  home_loop hw (S n) v initial w =
  if negb (level_at hw 1 v w =? initial) then (Ok true, attempt hw v w)
  else home_loop hw n v initial (attempt hw v w).
Proof.
  intros Hclock. destruct (attempt_run_at v w Hclock) as (E & _).
  cbn [home_loop]. unfold mbind, M_bind in E |- *.
  destruct (increment hw v true w) as [[u|e] w1]; [|discriminate E].
  cbn in E |- *. injection E as -> <-.
  destruct (negb _); reflexivity.
Qed.

Lemma clocked_tries_next (k : nat) (v : num) (w : world) :
  clocked_tries hw (S k) v w ->
  clock_reads_ok hw (commanded v w) /\ clocked_tries hw k v (attempt hw v w).
Proof.
  intros H. split.
  - apply (H O). lia.
  - intros j Hj. apply (H (S j)). lia.
Qed.

Lemma home_loop_found_at (v : num) (initial : Z) (n k : nat) (w : world) :
  (1 <= k <= n)%nat ->
  clocked_tries hw k v w ->
  (forall j, (1 <= j < k)%nat -> level_at hw j v w = initial) ->
  level_at hw k v w <> initial ->
  home_loop hw n v initial w = (Ok true, after_tries hw k v w).
Proof.
  revert k w. induction n as [|n IH]; intros k w Hk Hclock Hbefore Hat; [lia|].
  destruct k as [|k]; [lia|].
  apply clocked_tries_next in Hclock as [Hnow Hlater].
  rewrite home_loop_step_at by assumption.
  destruct k as [|k].
  - apply Z.eqb_neq in Hat. rewrite Hat. reflexivity.
  - assert (H1 : level_at hw 1 v w = initial) by (apply Hbefore; lia).
    apply Z.eqb_eq in H1. rewrite H1. cbn [negb].
    rewrite (IH (S k)); [reflexivity | lia | assumption | | assumption].
    intros j Hj. rewrite <- level_at_S. apply Hbefore. lia.
Qed.

Lemma home_loop_exhausted_at (v : num) (initial : Z) (n : nat) (w : world) :
  clocked_tries hw n v w ->
  (forall j, (1 <= j <= n)%nat -> level_at hw j v w = initial) ->
  home_loop hw n v initial w = (Ok false, after_tries hw n v w).
Proof.
  revert w. induction n as [|n IH]; intros w Hclock Hall; [reflexivity|].
  apply clocked_tries_next in Hclock as [Hnow Hlater].
  rewrite home_loop_step_at by assumption.
  assert (H1 : level_at hw 1 v w = initial) by (apply Hall; lia).
  apply Z.eqb_eq in H1. rewrite H1. cbn [negb].
  rewrite IH; [reflexivity | assumption |].
  intros j Hj. rewrite <- level_at_S. apply Hall. lia.
Qed.

Lemma after_tries_waits_at (v : num) (k : nat) (w : world) :
  clocked_tries hw k v w ->
  waits (io (after_tries hw k v w)) = (waits (io w) + k)%nat.
Proof.
  revert w. induction k as [|k IH]; intros w Hclock; cbn [after_tries]; [lia|].
  apply clocked_tries_next in Hclock as [Hnow Hlater].
  rewrite IH by assumption.
  destruct (attempt_run_at v w Hnow) as (_ & E). rewrite E. lia.
Qed.

(** A clock that reads well whatever happened reads well at each try. *)
Lemma clock_ok_clocked_tries (k : nat) (v : num) (w : world) :
  clock_ok hw -> clocked_tries hw k v w.
Proof. intros H j _. split; apply H. Qed.

End HomingAt.

Section HomeMethod.

Variable hw : list event -> string -> Z.

(** C2 (amended).  With a home pin bound, [home] reads the initial
    level of the home pin and then repeats tries, each a blocking move
    of [increment_] followed by a new reading of the pin.  Provided the
    clock divisor and roll registers read positive values in the wait
    of each try that is made, it returns [True] at the end of the
    first try [k <= max_tries] whose reading differs from the initial
    one, in the world reached by exactly [k] tries; and when all
    [max_tries] tries read the initial level it returns [False] after
    exactly [max_tries] tries.  [k] tries are [k] blocking moves: the
    log gains [k] waits. *)
Theorem home_seeks (increment_ : num) (max_tries : Z) (w : world) :
  home_reg (self w) <> "" ->
  let reg := home_reg (self w) in
  let initial := hw (io w) reg in
  let w0 := mkWorld (self w) (EvRead reg initial :: io w) in
  let n := Z.to_nat max_tries in
  (forall k : nat,
      (1 <= k <= n)%nat ->
      clocked_tries hw k increment_ w0 ->
      (forall j, (1 <= j < k)%nat -> level_at hw j increment_ w0 = initial) ->
      level_at hw k increment_ w0 <> initial ->
      home hw increment_ max_tries w = (Ok true, after_tries hw k increment_ w0) /\
      waits (io (after_tries hw k increment_ w0)) = (waits (io w) + k)%nat) /\
  (clocked_tries hw n increment_ w0 ->
   (forall j, (1 <= j <= n)%nat -> level_at hw j increment_ w0 = initial) ->
      home hw increment_ max_tries w = (Ok false, after_tries hw n increment_ w0) /\
      waits (io (after_tries hw n increment_ w0)) = (waits (io w) + n)%nat).
Proof.
  intros Hbound reg initial w0 n.
  assert (Hhome : home hw increment_ max_tries w = home_loop hw n increment_ initial w0).
  { unfold home, mbind, M_bind. cbn.
    apply String.eqb_neq in Hbound. rewrite Hbound. reflexivity. }
  rewrite Hhome. split.
  - intros k Hk Hclock Hbefore Hat. split.
    + apply home_loop_found_at; assumption.
    + rewrite after_tries_waits_at by assumption. reflexivity.
  - intros Hclock Hall. split.
    + apply home_loop_exhausted_at; assumption.
    + rewrite after_tries_waits_at by assumption. reflexivity.
Qed.

(** C3.  When no home pin is bound, [home] raises its "not configured"
    exception at once: the motor object and the I/O log are those
    of the call, so nothing was read or written and the position is
    unchanged. *)
Theorem home_not_configured (increment_ : num) (max_tries : Z) (w : world) :
  home_reg (self w) = "" ->
  home hw increment_ max_tries w =
    (Raise (Exception "The home channel was not configured."), w).
Proof.
  intros Hreg. unfold home, mbind, M_bind. cbn. rewrite Hreg. reflexivity.
Qed.

End HomeMethod.

Lemma sim_clock_ok : clock_ok sim_hw.
Proof. intros l. split; reflexivity. Qed.

(** The scenario of C2, on the bench: the clock registers read back the
    1 kHz settings, the level of the home pin is 0 at first and changes
    on the third move of [home(5, 10)], which returns [True] after three
    moves (15 counts, three waits). *)
Lemma home_seeks_witness :
  home_reg (self bench) <> "" /\
  bench_hw (io bench) "DIO8" = 0 /\
  clocked_tries bench_hw 3 (Int 5)
    (mkWorld (self bench) (EvRead "DIO8" 0 :: io bench)) /\
  level_at bench_hw 3 (Int 5)
    (mkWorld (self bench) (EvRead "DIO8" 0 :: io bench)) = 1 /\
  fst (home bench_hw (Int 5) 10 bench) = Ok true /\
  counts (self (snd (home bench_hw (Int 5) 10 bench))) = 15 /\
  waits (io (snd (home bench_hw (Int 5) 10 bench))) = 3%nat.
Proof.
  assert (Hb : home_reg (self bench) <> "") by (vm_compute; discriminate).
  assert (Hclock : clocked_tries bench_hw 3 (Int 5)
            (mkWorld (self bench) (EvRead "DIO8" 0 :: io bench))).
  { intros [|[|[|j]]] Hj; try lia; vm_compute; split; reflexivity. }
  destruct (home_seeks bench_hw (Int 5) 10 bench Hb) as (Hfound & _).
  cbv zeta in Hfound.
  destruct (Hfound 3%nat) as (E & Hwaits).
  - lia.
  - exact Hclock.
  - intros [|[|[|j]]] Hj; try lia; vm_compute; reflexivity.
  - vm_compute. discriminate.
  - rewrite E.
    split; [exact Hb|]. split; [vm_compute; reflexivity|]. split; [exact Hclock|].
    repeat split; vm_compute; reflexivity.
Defined.

(** C2 as stated fails: on a device whose clock registers read 0, as
    before any clock is set, [home] with the home pin bound neither
    returns [True] nor [False]: its first blocking move raises
    [ZeroDivisionError]. *)
Lemma home_unclocked_raises :
  home_reg (self polarizer) <> "" /\
  fst (home zero_hw (Int 5) 10 polarizer) = Raise ZeroDivisionError /\
  (forall found : bool, fst (home zero_hw (Int 5) 10 polarizer) <> Ok found).
Proof.
  split; [vm_compute; discriminate|].
  assert (E : fst (home zero_hw (Int 5) 10 polarizer) = Raise ZeroDivisionError)
    by (vm_compute; reflexivity).
  split; [exact E|]. intros found. rewrite E. discriminate.
Qed.

(** The scenario of C3: [home] on a fresh motor. *)
Lemma home_not_configured_witness :
  home_reg (self fresh) = "" /\
  home sim_hw (Int 5) 100 fresh =
    (Raise (Exception "The home channel was not configured."), fresh).
Proof.
  split; [reflexivity|].
  apply (home_not_configured sim_hw (Int 5) 100 fresh). reflexivity.
Defined.

(** ** Calibration *)

Lemma trunc_inject (q : Q) (c : Z) : (q == inject_Z c)%Q -> trunc q = c.
Proof.
  unfold Qeq, trunc. cbn. intros H. rewrite Z.mul_1_r in H. rewrite H.
  apply Z.quot_mul. discriminate.
Qed.

(** C9.  With a positive slope, converting a count to calibrated units
    ([slope * (c - zero)], as [get_cal]) and back
    ([p / slope + zero], as [go_cal]) gives the count again, exactly over
    the rationals; the integer that [int()] then makes of it is [c]. *)
Theorem calibration_round_trip (m : Motor) (c : Z) :
  (0 < cal_slope m)%Q ->
  exists q, to_counts m (to_physical m c) = Ok q /\
            (q == inject_Z c)%Q /\
            int (Float q) = c.
Proof.
  intros Hslope. apply Qpos_neq0 in Hslope.
  unfold to_counts. rewrite py_div_ok by assumption. cbn.
  eexists. split; [reflexivity|].
  assert (E : (to_physical m c / cal_slope m + cal_zero m == inject_Z c)%Q).
  { unfold to_physical. field. assumption. }
  split; [exact E | apply trunc_inject, E].
Qed.

(** The scenario of C9: 100 counts at 0.9 degrees per count. *)
Lemma calibration_round_trip_witness :
  (0 < cal_slope (self in_degrees))%Q /\
  cal_slope (self in_degrees) = (9 # 10)%Q /\
  exists q, to_counts (self in_degrees) (to_physical (self in_degrees) 100) = Ok q /\
            (q == inject_Z 100)%Q /\ int (Float q) = 100.
Proof.
  split; [reflexivity|]. split; [reflexivity|].
  apply (calibration_round_trip (self in_degrees) 100). reflexivity.
Defined.

(** ** The clock *)

Lemma trunc_floor (q : Q) : (0 <= q)%Q -> trunc q = Qfloor q.
Proof.
  destruct q as [n d]. unfold Qle, trunc, Qfloor. cbn. intros H.
  apply Z.quot_div_nonneg; lia.
Qed.

(** The loop of [set_clock_hz] halves [roll] the least number of times
    that brings it into 32 bits, and doubles [divisor] as often; the
    bit length of [roll] is fuel enough. *)
Lemma set_clock_hz_loop_spec (fuel : nat) (roll divisor : Z) :
  0 <= roll -> Z.log2 roll <= Z.of_nat fuel ->
  exists k : nat,
    set_clock_hz_loop fuel roll divisor =
      (Z.shiftr roll (Z.of_nat k), Z.shiftl divisor (Z.of_nat k)) /\
    Z.shiftr roll (Z.of_nat k) <= 0xFFFFFFFF /\
    (forall j : nat, (j < k)%nat -> Z.shiftr roll (Z.of_nat j) > 0xFFFFFFFF).
Proof.
  revert roll divisor. induction fuel as [|fuel IH]; intros roll divisor Hroll Hlog.
  - assert (Hsmall : roll <= 0xFFFFFFFF).
    { destruct (Z.le_gt_cases roll 0xFFFFFFFF) as [H|H]; [exact H|].
      assert (Z.log2 0x100000000 <= Z.log2 roll) by (apply Z.log2_le_mono; lia).
      change (Z.log2 0x100000000) with 32 in *. lia. }
    exists O. cbn [set_clock_hz_loop Z.of_nat].
    rewrite Z.shiftr_0_r, Z.shiftl_0_r.
    destruct (Z.gtb_spec roll 0xFFFFFFFF); [lia|].
    split; [reflexivity|]. split; [assumption|]. intros j Hj. lia.
  - cbn [set_clock_hz_loop].
    destruct (Z.gtb_spec roll 0xFFFFFFFF) as [Hbig|Hsmall].
    + destruct (IH (Z.shiftr roll 1) (Z.shiftl divisor 1)) as (k & E & Hfit & Hmin).
      * apply Z.shiftr_nonneg. assumption.
      * rewrite Z.log2_shiftr by lia. lia.
      * exists (S k). rewrite E.
        rewrite Z.shiftr_shiftr, Z.shiftl_shiftl by lia.
        replace (1 + Z.of_nat k) with (Z.of_nat (S k)) by lia.
        split; [reflexivity|]. split.
        -- rewrite Z.shiftr_shiftr in Hfit by lia.
           replace (1 + Z.of_nat k) with (Z.of_nat (S k)) in Hfit by lia. exact Hfit.
        -- intros [|j] Hj.
           ++ cbn [Z.of_nat]. rewrite Z.shiftr_0_r. lia.
           ++ replace (Z.of_nat (S j)) with (1 + Z.of_nat j) by lia.
              rewrite <- Z.shiftr_shiftr by lia. apply Hmin. lia.
    + exists O. cbn [Z.of_nat]. rewrite Z.shiftr_0_r, Z.shiftl_0_r.
      split; [reflexivity|]. split; [assumption|]. intros j Hj. lia.
Qed.

Lemma shiftr_bounds (a : Z) (k : nat) :
  0 <= a ->
  let r := Z.shiftr a (Z.of_nat k) in
  let d := Z.shiftl 1 (Z.of_nat k) in
  0 < d /\ 0 <= r /\ r * d <= a /\ a + 1 <= (r + 1) * d.
Proof.
  intros Ha. cbv zeta.
  rewrite Z.shiftl_1_l, Z.shiftr_div_pow2 by lia.
  assert (Hd : 0 < 2 ^ Z.of_nat k) by (apply Z.pow_pos_nonneg; lia).
  pose proof (Z.mul_div_le a _ Hd). pose proof (Z.mul_succ_div_gt a _ Hd).
  assert (0 <= a / 2 ^ Z.of_nat k) by (apply Z.div_pos; lia).
  lia.
Qed.

(** The approximation: when [r] halvings-and-doublings away from the
    floor of [80e6 / f] the roll is at least 1, the realized rate is
    within one step of [f]. *)
Lemma approximates (f : Q) (r d : Z) :
  (0 < f)%Q -> 0 < d -> 1 <= r ->
  r * d <= Qfloor (80000000 / f) ->
  Qfloor (80000000 / f) + 1 <= (r + 1) * d ->
  within_one_step f r d.
Proof.
  intros Hf Hd Hr Hlow Hhigh.
  destruct (clock_hz_pos r d) as [E HF]; [lia | lia |].
  exists (80000000 / inject_Z d / inject_Z r)%Q. split; [exact E|].
  set (q := (80000000 / f)%Q) in *.
  assert (Hq : (q * f == 80000000)%Q).
  { unfold q. field. apply Qpos_neq0. assumption. }
  pose proof (Qfloor_le q) as Hfl. pose proof (Qlt_floor q) as Hfu.
  assert (HD : (0 < inject_Z d)%Q) by (apply inject_Z_pos; lia).
  assert (HR : (0 < inject_Z r)%Q) by (apply inject_Z_pos; lia).
  assert (HR1 : (0 < inject_Z (r + 1))%Q) by (apply inject_Z_pos; lia).
  assert (Hl : (inject_Z r * inject_Z d <= q)%Q).
  { rewrite <- inject_Z_mult. apply Qle_trans with (inject_Z (Qfloor q)); [|exact Hfl].
    rewrite <- Zle_Qle. exact Hlow. }
  assert (Hh : (q < inject_Z (r + 1) * inject_Z d)%Q).
  { rewrite <- inject_Z_mult. apply Qlt_le_trans with (inject_Z (Qfloor q + 1)); [exact Hfu|].
    rewrite <- Zle_Qle. exact Hhigh. }
  split.
  - apply Qlt_shift_div_r; [exact HR1|]. apply Qlt_shift_div_r; [exact HD|].
    rewrite <- Hq. nra.
  - apply Qle_shift_div_l; [exact HR|]. apply Qle_shift_div_l; [exact HD|].
    rewrite <- Hq. nra.
Qed.

(** C7 (amended).  For every positive target [f], [set_clock_hz]
    starts from [roll = floor(80e6 / |f|)] and [divisor = 1], halves the
    roll and doubles the divisor [k] times, [k] being the least number
    of halvings that brings the roll into 32 bits; the resulting roll
    fits in 32 bits and the divisor is the power of two [2^k].  When
    moreover [f] does not exceed the 80 MHz base clock, the roll is at
    least 1 and the realized rate is within one quantization step of
    [f]. *)
Theorem clock_settings_fit (f : Q) :
  (0 < f)%Q ->
  exists (roll divisor : Z) (k : nat),
    clock_settings f = Ok (roll, divisor) /\
    roll = Z.shiftr (Qfloor (80000000 / Qabs f)) (Z.of_nat k) /\
    divisor = 2 ^ Z.of_nat k /\
    (forall j : nat, (j < k)%nat ->
       Z.shiftr (Qfloor (80000000 / Qabs f)) (Z.of_nat j) > 0xFFFFFFFF) /\
    0 <= roll <= 0xFFFFFFFF /\
    ((f <= 80000000)%Q -> 1 <= roll /\ within_one_step f roll divisor).
Proof.
  intros Hf.
  assert (Habs : Qabs f = f).
  { destruct f as [[|n|n] d]; try reflexivity; exfalso; revert Hf; unfold Qlt; cbn; lia. }
  rewrite Habs.
  set (q := (80000000 / f)%Q).
  assert (Hq : (0 < q)%Q) by (apply Qdiv_pos; [reflexivity | assumption]).
  assert (Htr : trunc q = Qfloor q) by (apply trunc_floor, Qlt_le_weak, Hq).
  assert (Hfl : 0 <= Qfloor q).
  { change 0 with (Qfloor 0). apply Qfloor_resp_le, Qlt_le_weak, Hq. }
  destruct (set_clock_hz_loop_spec (Z.to_nat (Z.log2 (Qfloor q))) (Qfloor q) 1 Hfl)
    as (k & E & Hfit & Hmin).
  { pose proof (Z.log2_nonneg (Qfloor q)). lia. }
  destruct (shiftr_bounds (Qfloor q) k Hfl) as (Hd & Hr & Hlow & Hhigh).
  exists (Z.shiftr (Qfloor q) (Z.of_nat k)), (2 ^ Z.of_nat k), k.
  rewrite Z.shiftl_1_l in *.
  split.
  { unfold clock_settings. rewrite Habs.
    rewrite py_div_ok by (apply Qpos_neq0; assumption).
    cbn. fold q. rewrite Htr, E. reflexivity. }
  split; [reflexivity|]. split; [reflexivity|]. split; [exact Hmin|].
  split; [lia|].
  intros Hle.
  assert (H1 : 1 <= Z.shiftr (Qfloor q) (Z.of_nat k)).
  { destruct k as [|k].
    - cbn [Z.of_nat]. rewrite Z.shiftr_0_r.
      change 1 with (Qfloor 1). apply Qfloor_resp_le.
      unfold q. apply Qle_shift_div_l; [assumption|]. rewrite Qmult_1_l. assumption.
    - assert (Hk : Z.shiftr (Qfloor q) (Z.of_nat k) > 0xFFFFFFFF) by (apply Hmin; lia).
      replace (Z.of_nat (S k)) with (Z.of_nat k + 1) by lia.
      rewrite <- Z.shiftr_shiftr by lia.
      rewrite (Z.shiftr_div_pow2 _ 1) by lia.
      change (2 ^ 1) with 2.
      apply Z.div_le_lower_bound; lia. }
  split; [exact H1|].
  apply approximates; assumption.
Qed.

(** The scenario of C7: at 1 kHz the roll is 80000 and the divisor 1. *)
Lemma clock_settings_fit_witness :
  (0 < 1000)%Q /\
  clock_settings 1000 = Ok (80000, 1) /\
  exists (roll divisor : Z) (k : nat),
    clock_settings 1000 = Ok (roll, divisor) /\
    roll = Z.shiftr (Qfloor (80000000 / Qabs 1000)) (Z.of_nat k) /\
    divisor = 2 ^ Z.of_nat k /\
    (forall j : nat, (j < k)%nat ->
       Z.shiftr (Qfloor (80000000 / Qabs 1000)) (Z.of_nat j) > 0xFFFFFFFF) /\
    0 <= roll <= 0xFFFFFFFF /\
    ((1000 <= 80000000)%Q -> 1 <= roll /\ within_one_step 1000 roll divisor).
Proof.
  split; [reflexivity|]. split; [reflexivity|].
  apply (clock_settings_fit 1000). reflexivity.
Defined.

(** C7 as stated fails above the base clock: at 160 MHz the computed
    roll is 0, and the rate [80e6 / divisor / roll] is not defined. *)
Lemma clock_settings_overrange :
  (0 < 160000000)%Q /\
  clock_settings 160000000 = Ok (0, 1) /\
  clock_hz 0 1 = Raise ZeroDivisionError /\
  ~ within_one_step 160000000 0 1.
Proof.
  split; [reflexivity|]. split; [reflexivity|]. split; [reflexivity|].
  intros (F & E & _). discriminate E.
Qed.

Lemma clock_settings_overlarge (rate : Q) :
  (80000000 < Qabs rate)%Q -> clock_settings rate = Ok (0, 1).
Proof.
  intros Hbig.
  assert (Hpos : (0 < Qabs rate)%Q) by (apply Qlt_trans with 80000000%Q; [reflexivity | assumption]).
  unfold clock_settings. rewrite py_div_ok by (apply Qpos_neq0; assumption). cbn.
  set (q := (80000000 / Qabs rate)%Q).
  assert (Hq0 : (0 < q)%Q) by (apply Qdiv_pos; [reflexivity | assumption]).
  assert (Hq1 : (q < 1)%Q).
  { unfold q. apply Qlt_shift_div_r; [assumption|]. rewrite Qmult_1_l. assumption. }
  assert (Hfl : Qfloor q = 0).
  { assert (0 <= Qfloor q).
    { change 0 with (Qfloor 0). apply Qfloor_resp_le, Qlt_le_weak, Hq0. }
    assert (Qfloor q < 1).
    { rewrite Zlt_Qlt. apply Qle_lt_trans with q; [apply Qfloor_le | exact Hq1]. }
    lia. }
  rewrite trunc_floor by (apply Qlt_le_weak, Hq0). rewrite Hfl. reflexivity.
Qed.

(** C8 (amended).  There is no frequency check in [set_clock_hz].  A
    target of zero fails with the [ZeroDivisionError] of the division
    [80e6 / abs(rate)], before anything is written.  A target above the
    base clock, whose computed roll is 0, does not fail: roll 0 and
    divisor 1 are written to the clock. *)
Theorem set_clock_hz_unchecked (rate : Q) (w : world) :
  ((rate == 0)%Q -> set_clock_hz rate w = (Raise ZeroDivisionError, w)) /\
  ((80000000 < Qabs rate)%Q ->
     set_clock_hz rate w =
       (Ok tt, mkWorld (self w)
                 (EvWrite "DIO_EF_CLOCK0_ENABLE" 1
                    :: EvWrite "DIO_EF_CLOCK0_DIVISOR" 1
                    :: EvWrite "DIO_EF_CLOCK0_ROLL_VALUE" 0
                    :: EvWrite "DIO_EF_CLOCK0_ENABLE" 0 :: io w))).
Proof.
  split.
  - intros Hz. unfold set_clock_hz, clock_settings, lift, mbind, M_bind.
    rewrite py_div_zero; [reflexivity|].
    rewrite Hz. reflexivity.
  - intros Hbig. unfold set_clock_hz, lift, mbind, M_bind.
    rewrite clock_settings_overlarge by assumption. reflexivity.
Qed.

(** The scenarios of C8: a target of 0, and a target of 100 MHz. *)
Lemma set_clock_hz_unchecked_witness :
  set_clock_hz 0 fresh = (Raise ZeroDivisionError, fresh) /\
  fst (set_clock_hz 100000000 fresh) = Ok tt.
Proof.
  destruct (set_clock_hz_unchecked 0 fresh) as (Hz & _).
  destruct (set_clock_hz_unchecked 100000000 fresh) as (_ & Hbig).
  split; [apply Hz; reflexivity | rewrite Hbig; reflexivity].
Defined.

(** C8 as stated fails: the over-large target 160 MHz gives roll 0, and
    [set_clock_hz] succeeds and writes it; and the failure at zero is
    the arithmetic error of the division, not an exception that the
    method raises by itself. *)
Lemma set_clock_hz_overrange_succeeds :
  clock_settings 160000000 = Ok (0, 1) /\
  fst (set_clock_hz 160000000 fresh) = Ok tt /\
  written_to "DIO_EF_CLOCK0_ROLL_VALUE" (io (snd (set_clock_hz 160000000 fresh))) = [0] /\
  ~ (exists msg, fst (set_clock_hz 0 fresh) = Raise (Exception msg)).
Proof.
  split; [reflexivity|]. split; [reflexivity|]. split; [vm_compute; reflexivity|].
  intros (msg & E). discriminate E.
Qed.

(** ** Pin binding *)

Lemma int_nonneg (x : num) : Qleb 0 (num_Q x) = true -> 0 <= int x.
Proof.
  destruct x as [z|[n d]]; unfold Qleb; cbn; rewrite Z.leb_le; intros H.
  - lia.
  - unfold trunc. cbn. apply Z.quot_pos; lia.
Qed.

Lemma py_shl_ok (x n : Z) : 0 <= n -> py_shl x n = Ok (Z.shiftl x n).
Proof. intros H. unfold py_shl. destruct (Z.ltb_spec n 0); [lia | reflexivity]. Qed.

Lemma py_shl_neg (x n : Z) : n < 0 -> py_shl x n = Raise ValueError.
Proof. intros H. unfold py_shl. destruct (Z.ltb_spec n 0); [reflexivity | lia]. Qed.

Section Pins.

Variable hw : list event -> string -> Z.

(** C6 (amended).  [set_pins] has no validation of its own.  It fails
    exactly when the direction pin or the pulse pin is negative, with the
    [ValueError] of the shift [1 << pin], and then nothing has been
    written: the log gained only the read of the direction mask.  With
    both non-negative it succeeds and writes twelve registers, whatever
    the home pin (a negative home pin means no home pin) and whether or
    not two pins are equal. *)
Theorem set_pins_unchecked (dir_pin_ pulse_pin_ home_pin_ : num) (invert_ : bool) (w : world) :
  let run := set_pins hw dir_pin_ pulse_pin_ home_pin_ invert_ w in
  ((int dir_pin_ < 0 \/ int pulse_pin_ < 0) ->
     fst run = Raise ValueError /\
     io (snd run) = EvRead "DIO_DIRECTION" (hw (io w) "DIO_DIRECTION") :: io w) /\
  (0 <= int dir_pin_ -> 0 <= int pulse_pin_ ->
     fst run = Ok tt /\
     length (writes (io (snd run))) = (length (writes (io w)) + 12)%nat).
Proof.
  cbv zeta.
  unfold set_pins, get_clock, mbind, M_bind, mret, M_ret, modify_self, get_self,
    eReadName, eWriteName, lift. cbn.
  split.
  - intros Hneg.
    destruct (Z.lt_ge_cases (int pulse_pin_) 0) as [Hp|Hp].
    + rewrite py_shl_neg by assumption. cbn. split; reflexivity.
    + rewrite py_shl_ok by assumption. cbn.
      rewrite py_shl_neg by lia. cbn. split; reflexivity.
  - intros Hd Hp.
    rewrite !py_shl_ok by assumption. cbn.
    destruct (Qleb 0 (num_Q home_pin_)) eqn:Hh; cbn.
    + rewrite py_shl_ok by (apply int_nonneg; assumption). cbn.
      split; [reflexivity|].
      rewrite !length_app. cbn [length]. unfold writes. lia.
    + split; [reflexivity|].
      rewrite !length_app. cbn [length]. unfold writes. lia.
Qed.

(** What a successful binding leaves in the motor object: a home pin
    that is not negative is bound and its register has a name; a
    negative one leaves the home pin unbound, with the empty name that
    [home] tests. *)
Lemma set_pins_home (dir_pin_ pulse_pin_ home_pin_ : num) (invert_ : bool) (w : world) :
  let run := set_pins hw dir_pin_ pulse_pin_ home_pin_ invert_ w in
  fst run = Ok tt ->
  if Qleb 0 (num_Q home_pin_)
  then home_pin (self (snd run)) = int home_pin_ /\
       home_reg (self (snd run)) = "DIO" +:+ pretty (int home_pin_) /\
       home_reg (self (snd run)) <> ""
  else home_pin (self (snd run)) = -1 /\ home_reg (self (snd run)) = "".
Proof.
  cbv zeta.
  unfold set_pins, get_clock, mbind, M_bind, mret, M_ret, modify_self, get_self,
    eReadName, eWriteName, lift. cbn.
  destruct (py_shl 1 (int pulse_pin_)); cbn; [|discriminate].
  destruct (py_shl 1 (int dir_pin_)); cbn; [|discriminate].
  destruct (Qleb 0 (num_Q home_pin_)) eqn:Hh; cbn.
  - destruct (py_shl 1 (int home_pin_)); cbn; [|discriminate].
    intros _. repeat split. discriminate.
  - intros _. split; reflexivity.
Qed.

End Pins.

(** The scenarios of C6: a negative direction pin, and the pins of
    the polarizer. *)
Lemma set_pins_unchecked_witness :
  fst (set_pins sim_hw (Int (-2)) (Int 6) (Int 8) false fresh) = Raise ValueError /\
  io (snd (set_pins sim_hw (Int (-2)) (Int 6) (Int 8) false fresh)) =
    [EvRead "DIO_DIRECTION" 0] /\
  fst (set_pins sim_hw (Int 4) (Int 6) (Int 8) false fresh) = Ok tt.
Proof.
  destruct (set_pins_unchecked sim_hw (Int (-2)) (Int 6) (Int 8) false fresh) as (Hbad & _).
  destruct (set_pins_unchecked sim_hw (Int 4) (Int 6) (Int 8) false fresh) as (_ & Hgood).
  cbv zeta in Hbad, Hgood.
  destruct Hbad as (E1 & E2); [left; cbn; lia|].
  destruct Hgood as (E3 & _); [cbn; lia | cbn; lia |].
  split; [exact E1|]. split; [exact E2 | exact E3].
Defined.

(** C6 as stated fails: binding the direction and the pulse role to the
    same pin 4 succeeds and writes the registers, and so does a
    binding with the negative home pin -3, which leaves the home pin
    unbound. *)
Lemma set_pins_accepts_equal_pins :
  fst (set_pins sim_hw (Int 4) (Int 4) (Int (-1)) false fresh) = Ok tt /\
  length (writes (io (snd (set_pins sim_hw (Int 4) (Int 4) (Int (-1)) false fresh)))) = 12%nat /\
  fst (set_pins sim_hw (Int 4) (Int 6) (Int (-3)) false fresh) = Ok tt /\
  home_reg (self (snd (set_pins sim_hw (Int 4) (Int 6) (Int (-3)) false fresh))) = "".
Proof. vm_compute. repeat split. Qed.

(** ** Saving and loading the configuration *)

Lemma any_true (s : gset string) :
  any s = true <-> exists k, (k ∈ s) /\ k <> "".
Proof.
  unfold any. rewrite existsb_exists. split.
  - intros (k & Hin & Hk). exists k. split.
    + apply elem_of_elements, list_elem_of_In. exact Hin.
    + apply negb_true_iff, String.eqb_neq in Hk. exact Hk.
  - intros (k & Hin & Hk). exists k. split.
    + apply list_elem_of_In, elem_of_elements. exact Hin.
    + apply negb_true_iff, String.eqb_neq. exact Hk.
Qed.

Lemma any_false (s : gset string) :
  any s = false <-> forall k, k ∈ s -> k = "".
Proof.
  rewrite <- not_true_iff_false, any_true. split.
  - intros H k Hin. destruct (decide (k = "")) as [E|E]; [exact E|].
    exfalso. apply H. exists k. split; assumption.
  - intros H (k & Hin & Hk). apply Hk, H, Hin.
Qed.

Lemma mandatory_nonempty (k : string) : k ∈ mandatory -> k <> "".
Proof. unfold mandatory. intros Hin ->. set_solver. Qed.

(** The check for missing fields is exact: [any(missing)] holds exactly
    when some mandatory field is absent. *)
Lemma any_missing (config : gmap string jvalue) :
  any (mandatory ∖ dom config) = true <-> ~ (mandatory ⊆ dom config).
Proof.
  rewrite any_true. split.
  - intros (k & Hin & _) Hsub. set_solver.
  - intros Hnot.
    destruct (decide (mandatory ∖ dom config = ∅)) as [E|E].
    + exfalso. apply Hnot. intros k Hk.
      destruct (decide (k ∈ dom config)) as [Hd|Hd]; [exact Hd|].
      assert (Hin : k ∈ mandatory ∖ dom config) by (apply elem_of_difference; split; assumption).
      rewrite E in Hin. apply not_elem_of_empty in Hin. contradiction.
    + apply set_choose_L in E. destruct E as [k Hk]. exists k. split; [exact Hk|].
      apply mandatory_nonempty. set_solver.
Qed.

Section Loading.

Variable hw : list event -> string -> Z.

(** [load] refuses a record that lacks a mandatory field, before doing
    anything. *)
Lemma load_missing (config : gmap string jvalue) (w : world) :
  ~ (mandatory ⊆ dom config) ->
  load hw config w = (Raise (Exception "Missing mandatory parameters: "), w).
Proof.
  intros H. apply any_missing in H. unfold load. rewrite H. reflexivity.
Qed.

(** [load] refuses a record with all mandatory fields and an unknown
    key, provided some unknown key is not the empty string. *)
Lemma load_illegal (config : gmap string jvalue) (w : world) :
  mandatory ⊆ dom config ->
  (exists k, (k ∈ dom config) /\ (k ∉ allowed) /\ k <> "") ->
  load hw config w = (Raise (Exception "Illegal configuration parameters: "), w).
Proof.
  intros Hall (k & Hin & Hout & Hk). unfold load.
  destruct (any (mandatory ∖ dom config)) eqn:Hm.
  - apply any_missing in Hm. contradiction.
  - assert (Hi : any (dom config ∖ allowed) = true).
    { apply any_true. exists k. split; [set_solver | exact Hk]. }
    rewrite Hi. reflexivity.
Qed.

(** When the only unknown key is the empty string, the check of
    [load] lets the record through: both tests are false. *)
Lemma load_check_passes (config : gmap string jvalue) :
  mandatory ⊆ dom config ->
  (forall k, k ∈ dom config -> (k ∈ allowed) \/ k = "") ->
  any (mandatory ∖ dom config) = false /\ any (dom config ∖ allowed) = false.
Proof.
  intros Hall Hkeys. split.
  - apply not_true_iff_false. rewrite any_missing. tauto.
  - apply any_false. intros k Hk.
    destruct (Hkeys k) as [Hin|E]; [set_solver | set_solver | exact E].
Qed.

End Loading.

(** *** Past its check, [load] raises no [Exception] *)

Lemma quiet_ret {A : Type} (a : A) : quiet (mret a).
Proof. intros w msg. discriminate. Qed.

Lemma quiet_bind {A B : Type} (c : M A) (f : A -> M B) :
  quiet c -> (forall a, quiet (f a)) -> quiet (c ≫= f).
Proof.
  intros Hc Hf w msg. unfold mbind, M_bind.
  specialize (Hc w). destruct (c w) as [[a|e] w']; cbn in *.
  - apply Hf.
  - intros E. apply (Hc msg). injection E as ->. reflexivity.
Qed.

Lemma quiet_lift {A : Type} (r : result A) : rquiet r -> quiet (lift r).
Proof. intros Hr w msg. apply Hr. Qed.

Lemma quiet_modify (f : Motor -> Motor) : quiet (modify_self f).
Proof. intros w msg. discriminate. Qed.

Lemma quiet_get_self : quiet get_self.
Proof. intros w msg. discriminate. Qed.

Lemma quiet_write (name : string) (v : Z) : quiet (eWriteName name v).
Proof. intros w msg. discriminate. Qed.

Lemma quiet_read (hw : list event -> string -> Z) (name : string) :
  quiet (eReadName hw name).
Proof. intros w msg. discriminate. Qed.

Lemma rquiet_ok {A : Type} (a : A) : rquiet (Ok a).
Proof. intros msg. discriminate. Qed.

Lemma rquiet_item (config : gmap string jvalue) (key : string) :
  rquiet (item config key).
Proof. intros msg. unfold item. destruct (config !! key); discriminate. Qed.

Lemma rquiet_jnum (v : jvalue) : rquiet (jnum v).
Proof. intros msg. destruct v; discriminate. Qed.

Lemma rquiet_jQ (v : jvalue) : rquiet (jQ v).
Proof. intros msg. destruct v; discriminate. Qed.

Lemma rquiet_jlimit (v : jvalue) : rquiet (jlimit v).
Proof. intros msg. destruct v; discriminate. Qed.

Lemma rquiet_jstr (v : jvalue) : rquiet (jstr v).
Proof. intros msg. destruct v; discriminate. Qed.

Lemma rquiet_py_shl (x n : Z) : rquiet (py_shl x n).
Proof. intros msg. unfold py_shl. destruct (n <? 0); discriminate. Qed.

Create HintDb quiet.

#[local] Hint Resolve quiet_ret quiet_lift quiet_modify quiet_get_self quiet_write
  quiet_read rquiet_ok rquiet_item rquiet_jnum rquiet_jQ rquiet_jlimit rquiet_jstr
  rquiet_py_shl : quiet.

Ltac quiet_steps :=
  repeat first
    [ apply quiet_bind; [|intros ?]
    | solve [auto with quiet]
    | match goal with
      | |- quiet (let '(_, _) := ?p in _) => destruct p
      | |- quiet (if ?b then _ else _) => destruct b
      | |- quiet (match ?o with Some _ => _ | None => _ end) => destruct o
      end ].

Lemma quiet_set_clock (roll divisor : num) : quiet (set_clock roll divisor).
Proof. unfold set_clock. quiet_steps. Qed.

Lemma quiet_set_pins (hw : list event -> string -> Z)
    (dir_pin_ pulse_pin_ home_pin_ : num) (invert_ : bool) :
  quiet (set_pins hw dir_pin_ pulse_pin_ home_pin_ invert_).
Proof. unfold set_pins, get_clock. quiet_steps. Qed.

Lemma quiet_when_present {A : Type} (config : gmap string jvalue) (key : string)
    (conv : jvalue -> result A) (f : A -> Motor -> Motor) :
  (forall v, rquiet (conv v)) -> quiet (when_present config key conv f).
Proof. intros Hconv. unfold when_present. quiet_steps. Qed.

Section LoadingExceptions.

Variable hw : list event -> string -> Z.

(** The exceptions that [load] raises by itself, exactly: the one for
    a missing mandatory field, and the one for an unknown key when some
    unknown key is not the empty string.  Every other failure of [load]
    is an error of another class. *)
Lemma load_exceptions (config : gmap string jvalue) (w : world) (msg : string) :
  fst (load hw config w) = Raise (Exception msg) <->
  (~ (mandatory ⊆ dom config) /\ msg = "Missing mandatory parameters: ") \/
  (mandatory ⊆ dom config /\
   (exists k, (k ∈ dom config) /\ (k ∉ allowed) /\ k <> "") /\
   msg = "Illegal configuration parameters: ").
Proof.
  split.
  - unfold load.
    destruct (any (mandatory ∖ dom config)) eqn:Hm.
    { intros E. injection E as <-. left. split; [apply any_missing, Hm | reflexivity]. }
    assert (Hall : mandatory ⊆ dom config).
    { destruct (decide (mandatory ⊆ dom config)) as [H|H]; [exact H|].
      apply any_missing in H. congruence. }
    destruct (any (dom config ∖ allowed)) eqn:Hi.
    { intros E. injection E as <-. right. split; [exact Hall|]. split; [|reflexivity].
      apply any_true in Hi. destruct Hi as (k & Hk & Hne).
      exists k. apply elem_of_difference in Hk. tauto. }
    intros E. exfalso. revert E.
    match goal with |- fst (?c w) = _ -> False => enough (quiet c) as Hq by apply Hq end.
    quiet_steps;
      first [ apply quiet_set_clock | apply quiet_set_pins
            | apply quiet_when_present; intros; auto with quiet ].
  - intros [(Hmiss & ->) | (Hall & Hk & ->)].
    + rewrite load_missing by assumption. reflexivity.
    + rewrite load_illegal by assumption. reflexivity.
Qed.

End LoadingExceptions.

(** The scenarios of C5 that the code meets: a record without
    [pulse_pin] and a record with an extra field [foo] are refused. *)
Lemma load_refuses_scenarios :
  load sim_hw config_without_pulse_pin fresh =
    (Raise (Exception "Missing mandatory parameters: "), fresh) /\
  load sim_hw config_with_foo fresh =
    (Raise (Exception "Illegal configuration parameters: "), fresh).
Proof. split; vm_compute; reflexivity. Qed.

(** C5, the failing input.  The record with the four mandatory fields
    and one more field whose key is the empty string has a key outside
    the allowed set, and [load] accepts it: [any(illegal)] tests the
    keys for truth, and the empty string is false.  The motor is
    configured from the record as if the key were not there. *)
Theorem load_accepts_empty_key :
  ("" ∈ dom config_with_empty_key) /\
  ("" ∉ allowed) /\
  (mandatory ⊆ dom config_with_empty_key) /\
  any (dom config_with_empty_key ∖ allowed) = false /\
  fst (load sim_hw config_with_empty_key fresh) = Ok tt /\
  snd (load sim_hw config_with_empty_key fresh) = snd (load sim_hw base_config fresh).
Proof.
  split; [compute_done|]. split; [compute_done|]. split; [compute_done|].
  split; [vm_compute; reflexivity|]. split; vm_compute; reflexivity.
Qed.

Example load_base_config :
  fst (load sim_hw base_config fresh) = Ok tt /\
  self (snd (load sim_hw base_config fresh)) =
    mkMotor false 4 "DIO4" 6 "DIO6_EF_CONFIG_C" (-1) "" 0 0 1 "counts" None None.
Proof. vm_compute. split; reflexivity. Qed.

Section Saving.

Variable hw : list event -> string -> Z.

(** [save] reads the clock, builds the record and stops at the call of
    [json.dump] without a file: nothing of the record is written. *)
Lemma save_raises (filename : string) (w : world) :
  fst (save hw filename w) = Raise TypeError /\
  self (snd (save hw filename w)) = self w /\
  writes (io (snd (save hw filename w))) = writes (io w).
Proof. repeat split. Qed.

End Saving.

(** C4 (amended).  The record that [save] builds has exactly the eleven
    fields that [load] allows, each once and in the order of the source:
    the four mandatory fields and every optional field, set or not.  A
    limit is stored as its value, null when unset; the home pin is stored
    as the attribute [home_pin], which is -1 when no home pin is bound. *)
Theorem save_config_fields (m : Motor) (roll divisor : Z) :
  let config := save_config m roll divisor in
  config.*1 =
    [ "clock_roll"; "clock_divisor"; "dir_pin"; "pulse_pin"; "home_pin";
      "invert"; "cal_slope"; "cal_zero"; "cal_units"; "lim_upper"; "lim_lower" ] /\
  list_to_set config.*1 = allowed /\
  NoDup config.*1 /\
  (forall k, k ∈ mandatory -> k ∈ config.*1) /\
  (forall k, k ∈ optional -> k ∈ config.*1) /\
  ("lim_upper", limit_json (lim_upper m)) ∈ config /\
  ("lim_lower", limit_json (lim_lower m)) ∈ config /\
  ("home_pin", JInt (home_pin m)) ∈ config.
Proof.
  cbv zeta.
  assert (Hkeys : (save_config m roll divisor).*1 =
    [ "clock_roll"; "clock_divisor"; "dir_pin"; "pulse_pin"; "home_pin";
      "invert"; "cal_slope"; "cal_zero"; "cal_units"; "lim_upper"; "lim_lower" ])
    by reflexivity.
  rewrite Hkeys.
  split; [reflexivity|].
  split; [by vm_compute|].
  split; [by apply (bool_decide_unpack _); vm_compute|].
  split; [intros k Hk; unfold mandatory in Hk; set_solver|].
  split; [intros k Hk; unfold optional in Hk; set_solver|].
  unfold save_config.
  split; [set_solver|]. split; set_solver.
Qed.

(** The scenario of C4: the record of a fresh motor stores the unset
    upper limit as null. *)
Lemma save_config_fields_witness :
  lim_upper (self fresh) = None /\
  ("lim_upper", JNull) ∈ save_config (self fresh) 80000 1.
Proof.
  split; [reflexivity|].
  destruct (save_config_fields (self fresh) 80000 1) as (_ & _ & _ & _ & _ & H & _).
  exact H.
Defined.

(** C4 as stated fails: on a fresh motor the upper limit is unset and
    no home pin is bound, and the record that [save] builds has the
    fields [lim_upper] and [home_pin] all the same; so an optional field
    is not written exactly when it is set. *)
Lemma save_config_has_unset_fields :
  lim_upper (self fresh) = None /\
  home_reg (self fresh) = "" /\
  ~ ("lim_upper" ∈ (save_config (self fresh) 80000 1).*1 <->
     lim_upper (self fresh) <> None) /\
  ~ ("home_pin" ∈ (save_config (self fresh) 80000 1).*1 <->
     home_reg (self fresh) <> "").
Proof.
  split; [reflexivity|]. split; [reflexivity|].
  split; intros [H _]; apply H; [|reflexivity| |reflexivity]; cbn; set_solver.
Qed.

(** ** What the methods keep of the motor object *)

Lemma keeps_ret {A : Type} (P : Motor -> Prop) (a : A) : keeps P (mret a).
Proof. intros w H. exact H. Qed.

Lemma keeps_raise {A : Type} (P : Motor -> Prop) (e : exn) : keeps P (@raise A e).
Proof. intros w H. exact H. Qed.

Lemma keeps_lift {A : Type} (P : Motor -> Prop) (r : result A) : keeps P (lift r).
Proof. intros w H. exact H. Qed.

Lemma keeps_get_self (P : Motor -> Prop) : keeps P get_self.
Proof. intros w H. exact H. Qed.

Lemma keeps_write (P : Motor -> Prop) (name : string) (v : Z) :
  keeps P (eWriteName name v).
Proof. intros w H. exact H. Qed.

Lemma keeps_read (P : Motor -> Prop) (hw : list event -> string -> Z) (name : string) :
  keeps P (eReadName hw name).
Proof. intros w H. exact H. Qed.

Lemma keeps_sleep (P : Motor -> Prop) (t : Q) : keeps P (time_sleep t).
Proof. intros w H. unfold time_sleep. destruct (Qltb t 0); exact H. Qed.

Lemma keeps_modify (P : Motor -> Prop) (f : Motor -> Motor) :
  (forall m, P m -> P (f m)) -> keeps P (modify_self f).
Proof. intros Hf w H. apply Hf, H. Qed.

Lemma keeps_bind {A B : Type} (P : Motor -> Prop) (c : M A) (f : A -> M B) :
  keeps P c -> (forall a, keeps P (f a)) -> keeps P (c ≫= f).
Proof.
  intros Hc Hf w H. unfold mbind, M_bind.
  specialize (Hc w H). destruct (c w) as [[a|e] w']; cbn in *.
  - apply Hf, Hc.
  - exact Hc.
Qed.

Create HintDb keeps.

#[local] Hint Resolve keeps_ret keeps_raise keeps_lift keeps_get_self keeps_write
  keeps_read keeps_sleep : keeps.

(** Walk through the binds of a method; [known] closes the calls of
    methods that have their lemma already. *)
Ltac keeps_by known :=
  repeat first
    [ known
    | solve [auto with keeps]
    | match goal with
      | |- keeps _ (let '(_, _) := ?p in _) => destruct p
      | |- keeps _ (if ?b then _ else _) => destruct b
      | |- keeps _ (match ?o with Some _ => _ | None => _ end) => destruct o
      | |- keeps _ (_ ≫= _) => apply keeps_bind; [|intros ?]
      end ].

Ltac keeps_steps := keeps_by fail.

Section Keeping.

Variable hw : list event -> string -> Z.
Variable P : Motor -> Prop.

Lemma keeps_get_clock : keeps P (get_clock hw).
Proof. unfold get_clock. keeps_steps. Qed.

Lemma keeps_get_clock_hz : keeps P (get_clock_hz hw).
Proof. unfold get_clock_hz, get_clock. keeps_steps. Qed.

Lemma keeps_set_clock (roll divisor : num) : keeps P (set_clock roll divisor).
Proof. unfold set_clock. keeps_steps. Qed.

Lemma keeps_set_clock_hz (rate : Q) : keeps P (set_clock_hz rate).
Proof. unfold set_clock_hz. keeps_by ltac:(apply keeps_set_clock). Qed.

Lemma keeps_save (filename : string) : keeps P (save hw filename).
Proof. unfold save, get_clock. keeps_steps. Qed.

Hypothesis closed : motion_closed P.

Lemma keeps_increment (value : num) (block : bool) :
  keeps P (increment hw value block).
Proof. intros w H. rewrite increment_self. apply closed, H. Qed.


End Keeping.

Section KeepingMoves.

Variable hw : list event -> string -> Z.
Variable P : Motor -> Prop.
Hypothesis closed : motion_closed P.

Lemma keeps_increment_cal (value : Q) (block : bool) :
  keeps P (increment_cal hw value block).
Proof.
  unfold increment_cal.
  apply keeps_bind; [apply keeps_get_self | intros m].
  apply keeps_bind; [apply keeps_lift | intros v].
  apply keeps_increment, closed.
Qed.

Lemma keeps_go (target : num) (block : bool) : keeps P (go hw target block).
Proof.
  unfold go.
  apply keeps_bind; [apply keeps_get_self | intros m].
  apply keeps_increment, closed.
Qed.

Lemma keeps_go_cal (target : Q) : keeps P (go_cal hw target).
Proof.
  unfold go_cal.
  apply keeps_bind; [apply keeps_get_self | intros m].
  apply keeps_bind; [apply keeps_lift | intros c].
  apply keeps_go.
Qed.

Lemma keeps_home_loop (n : nat) (increment_ : num) (initial : Z) :
  keeps P (home_loop hw n increment_ initial).
Proof.
  induction n as [|n IH]; cbn [home_loop]; [apply keeps_ret|].
  apply keeps_bind; [apply keeps_increment, closed | intros _].
  apply keeps_bind; [apply keeps_get_self | intros m].
  apply keeps_bind; [apply keeps_read | intros level].
  destruct (negb (level =? initial)); [apply keeps_ret | exact IH].
Qed.

Lemma keeps_home (increment_ : num) (max_tries : Z) :
  keeps P (home hw increment_ max_tries).
Proof.
  unfold home.
  apply keeps_bind; [apply keeps_get_self | intros m].
  destruct (String.eqb (home_reg m) ""); [apply keeps_raise|].
  apply keeps_bind; [apply keeps_read | intros initial].
  apply keeps_home_loop.
Qed.

End KeepingMoves.

Section KeepingPins.

Variable hw : list event -> string -> Z.
Variable P : Motor -> Prop.
Hypothesis blind : pins_blind P.

Lemma keeps_set_pins (dir_pin_ pulse_pin_ home_pin_ : num) (invert_ : bool) :
  keeps P (set_pins hw dir_pin_ pulse_pin_ home_pin_ invert_).
Proof.
  unfold set_pins, get_clock.
  keeps_by ltac:(idtac; lazymatch goal with
                 | |- keeps _ (modify_self _) =>
                     apply keeps_modify; intros m Hm; apply (blind m Hm)
                 end).
Qed.

End KeepingPins.

Lemma keeps_set_cal (P : Motor -> Prop) (zero slope : Q) (units : string) :
  (forall m, P m -> forall z s u, P (set_cal_units u (set_cal_slope s (set_cal_zero z m)))) ->
  keeps P (set_cal zero slope units).
Proof.
  intros HP w H. unfold set_cal.
  destruct (Qleb slope 0); [exact H | apply HP, H].
Qed.

Lemma in_limits_closed : motion_closed in_limits.
Proof.
  intros m v [Hlow Hup]. unfold in_limits, clamp. cbn.
  split.
  - intros l Hl. specialize (Hlow l Hl). destruct (Z.gtb_spec v 0) as [Hv|Hv].
    + destruct (lim_upper m) as [u|] eqn:Hu; [specialize (Hup u eq_refl)|]; lia.
    + rewrite Hl. lia.
  - intros u Hu. specialize (Hup u Hu). destruct (Z.gtb_spec v 0) as [Hv|Hv].
    + rewrite Hu. lia.
    + destruct (lim_lower m) as [l|] eqn:Hl; [specialize (Hlow l eq_refl)|]; lia.
Qed.

Lemma in_limits_pins_blind : pins_blind in_limits.
Proof. intros m H. repeat split; intros; apply H; assumption. Qed.

(** X1.  Every call other than [load] keeps the position inside the
    limits that are set: if the position respects them before the call,
    it respects them after it, whether the call returns or raises.
    The moves do so because a move that starts inside never crosses a
    limit; the other calls leave the position and the limits alone. *)
Theorem calls_keep_limits (hw : list event -> string -> Z) (c : call) (w : world) :
  is_load c = false ->
  in_limits (self w) ->
  in_limits (self (run_call hw c w)).
Proof.
  intros Hc H.
  destruct c; try discriminate Hc; unfold run_call, exec.
  - apply keeps_get_clock, H.
  - apply keeps_get_clock_hz, H.
  - apply keeps_set_clock, H.
  - apply keeps_set_clock_hz, H.
  - apply keeps_set_pins; [apply in_limits_pins_blind | exact H].
  - apply keeps_home; [apply in_limits_closed | exact H].
  - apply keeps_increment; [apply in_limits_closed | exact H].
  - apply keeps_increment_cal; [apply in_limits_closed | exact H].
  - apply keeps_go; [apply in_limits_closed | exact H].
  - apply keeps_go_cal; [apply in_limits_closed | exact H].
  - apply keeps_set_cal; [|exact H]. intros m Hm z s u. exact Hm.
  - apply keeps_save, H.
Qed.

Lemma in_limits_near_upper : in_limits (self near_upper).
Proof.
  split; intros x Hx; vm_compute in Hx; [discriminate Hx|].
  injection Hx as <-. vm_compute. discriminate.
Qed.

(** The scenario of X1: from 90 counts with the upper limit at 100, a
    [go] to 500 stops at the limit. *)
Lemma calls_keep_limits_witness :
  in_limits (self near_upper) /\
  in_limits (self (run_call sim_hw (Call_go (Int 500) false) near_upper)) /\
  counts (self (run_call sim_hw (Call_go (Int 500) false) near_upper)) = 100.
Proof.
  split; [apply in_limits_near_upper|].
  split; [|vm_compute; reflexivity].
  apply (calls_keep_limits sim_hw (Call_go (Int 500) false) near_upper);
    [reflexivity | apply in_limits_near_upper].
Defined.

(** ** The register names follow the pins *)

Lemma names_ok_closed : motion_closed names_ok.
Proof. intros m v H. exact H. Qed.

Lemma keeps_names_set_pins (hw : list event -> string -> Z)
    (dir_pin_ pulse_pin_ home_pin_ : num) (invert_ : bool) :
  keeps names_ok (set_pins hw dir_pin_ pulse_pin_ home_pin_ invert_).
Proof.
  unfold set_pins, get_clock.
  destruct (Qleb 0 (num_Q home_pin_)) eqn:Hh.
  - apply int_nonneg in Hh.
    keeps_by ltac:(idtac; lazymatch goal with
                   | |- keeps _ (modify_self _) =>
                       apply keeps_modify; intros m (Hd & Hp & Hhome);
                       unfold names_ok; cbn; auto 6
                   end).
  - keeps_by ltac:(idtac; lazymatch goal with
                   | |- keeps _ (modify_self _) =>
                       apply keeps_modify; intros m (Hd & Hp & Hhome);
                       unfold names_ok; cbn; auto 6
                   end).
Qed.

(** Walk through [load] for a property [P] that [set_pins] keeps and the
    attribute setters do not disturb. *)
Ltac keeps_load set_pins_lemma :=
  unfold load, when_present;
  keeps_by ltac:(idtac; lazymatch goal with
                 | |- keeps _ (set_clock _ _) => apply keeps_set_clock
                 | |- keeps _ (set_pins _ _ _ _ _) => set_pins_lemma
                 | |- keeps _ (modify_self _) =>
                     apply keeps_modify; intros m Hm; exact Hm
                 end).

Lemma keeps_names_load (hw : list event -> string -> Z) (config : gmap string jvalue) :
  keeps names_ok (load hw config).
Proof. keeps_load ltac:(apply keeps_names_set_pins). Qed.

Lemma names_ok_call (hw : list event -> string -> Z) (c : call) (w : world) :
  names_ok (self w) -> names_ok (self (run_call hw c w)).
Proof.
  intros H. destruct c; unfold run_call, exec.
  - apply keeps_get_clock, H.
  - apply keeps_get_clock_hz, H.
  - apply keeps_set_clock, H.
  - apply keeps_set_clock_hz, H.
  - apply keeps_names_set_pins, H.
  - apply keeps_home; [apply names_ok_closed | exact H].
  - apply keeps_increment; [apply names_ok_closed | exact H].
  - apply keeps_increment_cal; [apply names_ok_closed | exact H].
  - apply keeps_go; [apply names_ok_closed | exact H].
  - apply keeps_go_cal; [apply names_ok_closed | exact H].
  - apply keeps_set_cal; [|exact H]. intros m Hm z s u. exact Hm.
  - apply keeps_save, H.
  - apply keeps_names_load, H.
Qed.

(** X2.  In every session that starts from a fresh motor, whatever the
    device answers and whichever calls return or raise, the register
    names follow the pin numbers; in particular the home register is
    empty, which is what [home] tests, exactly when the home pin is the
    "not configured" value -1, and a bound home pin is never negative. *)
Theorem session_names_ok (hw : list event -> string -> Z) (cs : list call) :
  let m := self (run_calls hw cs fresh) in
  names_ok m /\
  (home_reg m = "" <-> home_pin m = -1) /\
  -1 <= home_pin m.
Proof.
  cbv zeta.
  assert (H : names_ok (self (run_calls hw cs fresh))).
  { unfold run_calls.
    assert (H0 : names_ok (self fresh)) by (unfold names_ok; cbn; auto).
    revert H0. generalize fresh. induction cs as [|c cs IH]; intros w Hw; [exact Hw|].
    cbn [fold_left]. apply IH, names_ok_call, Hw. }
  split; [exact H|].
  destruct H as (_ & _ & [[Hp Hr] | [Hp Hr]]).
  - rewrite Hp, Hr. split; [tauto | lia].
  - rewrite Hr. split; [|lia]. split; [discriminate | lia].
Qed.

(** X3.  The position changes only through the moves: the clock calls,
    [set_pins], [set_cal], [save] and [load] leave [counts] as it was,
    whether they return or raise. *)
Theorem only_moves_change_counts (hw : list event -> string -> Z) (c : call) (w : world) :
  is_motion c = false ->
  counts (self (run_call hw c w)) = counts (self w).
Proof.
  intros Hc.
  remember (counts (self w)) as c0 eqn:E.
  set (P := fun m : Motor => counts m = c0).
  assert (Hblind : pins_blind P) by (intros m Hm; repeat split; intros; exact Hm).
  assert (H : P (self w)) by (unfold P; congruence).
  change (P (self (run_call hw c w))). clear E.
  destruct c; try discriminate Hc; unfold run_call, exec.
  - apply keeps_get_clock, H.
  - apply keeps_get_clock_hz, H.
  - apply keeps_set_clock, H.
  - apply keeps_set_clock_hz, H.
  - apply keeps_set_pins; assumption.
  - apply keeps_set_cal; [|exact H]. intros m Hm z s u. exact Hm.
  - apply keeps_save, H.
  - revert H. generalize w. change (keeps P (load hw config)).
    keeps_load ltac:(apply keeps_set_pins; exact Hblind).
Qed.


(** The scenario of X3: binding the pins of a motor at 90 counts. *)
Lemma only_moves_change_counts_witness :
  counts (self near_upper) = 90 /\
  counts (self (run_call sim_hw (Call_set_pins (Int 5) (Int 7) (Int 9) true) near_upper)) = 90.
Proof.
  split; [reflexivity|].
  rewrite (only_moves_change_counts sim_hw (Call_set_pins (Int 5) (Int 7) (Int 9) true) near_upper);
    reflexivity.
Defined.

(** ** Absolute moves *)

Section Going.

Variable hw : list event -> string -> Z.

Lemma go_counts (target : num) (block : bool) (w : world) :
  counts (self (snd (go hw target block w))) =
  counts (self w) + clamp (self w) (int (num_sub_int target (counts (self w)))).
Proof. unfold go, mbind, M_bind. cbn. apply increment_counts. Qed.

(** X4.  [go] reaches every integer target that respects the limits
    that are set, from wherever the motor stands, even from outside the
    limits. *)
Theorem go_reaches (target : Z) (block : bool) (w : world) :
  (forall l, lim_lower (self w) = Some l -> l <= target) ->
  (forall u, lim_upper (self w) = Some u -> target <= u) ->
  counts (self (snd (go hw (Int target) block w))) = target.
Proof.
  intros Hlow Hup. rewrite go_counts. unfold clamp. cbn [num_sub_int int].
  destruct (Z.gtb_spec (target - counts (self w)) 0) as [Hpos|Hneg].
  - destruct (lim_upper (self w)) as [u|]; [specialize (Hup u eq_refl)|]; lia.
  - destruct (lim_lower (self w)) as [l|]; [specialize (Hlow l eq_refl)|]; lia.
Qed.

(** X5.  A second [go] to the target just reached is a move of zero
    length: it sends the direction register the value for "negative"
    and the pulse register the count 0, and the position stays. *)
Theorem go_twice (target : Z) (w : world) :
  (forall l, lim_lower (self w) = Some l -> l <= target) ->
  (forall u, lim_upper (self w) = Some u -> target <= u) ->
  let w1 := snd (go hw (Int target) false w) in
  go hw (Int target) false w1 =
    (Ok tt, mkWorld (self w1)
              (EvWrite (pulse_reg (self w)) 0
                 :: EvWrite (dir_reg (self w)) (bool_int (invert (self w)))
                 :: io w1)).
Proof.
  intros Hlow Hup. cbv zeta.
  pose proof (go_reaches target false w Hlow Hup) as Hc.
  set (w1 := snd (go hw (Int target) false w)) in *.
  assert (Hself : self w1 = set_counts target (self w)).
  { unfold w1, go, mbind, M_bind in *. cbn in *.
    rewrite increment_self in *. unfold commanded in *. cbn in *.
    rewrite Hc. reflexivity. }
  unfold go, mbind, M_bind. cbn. rewrite increment_eq. unfold commanded.
  rewrite Hself. cbn. rewrite Z.sub_diag. unfold clamp. cbn.
  destruct (lim_lower (self w)) as [l|]; [specialize (Hlow l eq_refl)|].
  - replace (Z.max 0 (l - target)) with 0 by lia. rewrite Z.add_0_r.
    destruct (invert (self w)); reflexivity.
  - rewrite Z.add_0_r. destruct (invert (self w)); reflexivity.
Qed.

End Going.

(** The scenario of X4 and X5: the polarizer at 90 counts, limit 100,
    sent to 100. *)
Lemma go_reaches_witness :
  (forall l, lim_lower (self near_upper) = Some l -> l <= 100) /\
  (forall u, lim_upper (self near_upper) = Some u -> 100 <= u) /\
  counts (self (snd (go sim_hw (Int 100) true near_upper))) = 100.
Proof.
  assert (Hl : forall l, lim_lower (self near_upper) = Some l -> l <= 100)
    by (intros l H; vm_compute in H; discriminate H).
  assert (Hu : forall u, lim_upper (self near_upper) = Some u -> 100 <= u)
    by (intros u H; vm_compute in H; injection H as <-; lia).
  split; [exact Hl|]. split; [exact Hu|].
  apply (go_reaches sim_hw 100 true near_upper Hl Hu).
Defined.

Lemma go_twice_witness :
  written_to "DIO6_EF_CONFIG_C"
    (io (snd (go sim_hw (Int 100) false (snd (go sim_hw (Int 100) false near_upper))))) =
  [1; 1; 10; 0].
Proof.
  assert (Hl : forall l, lim_lower (self near_upper) = Some l -> l <= 100)
    by (intros l H; vm_compute in H; discriminate H).
  assert (Hu : forall u, lim_upper (self near_upper) = Some u -> 100 <= u)
    by (intros u H; vm_compute in H; injection H as <-; lia).
  rewrite (go_twice sim_hw 100 near_upper Hl Hu). vm_compute. reflexivity.
Defined.


(** ** Truncation and the moves given as floats *)

Lemma trunc_opp (q : Q) : trunc (- q) = - trunc q.
Proof. destruct q as [n d]. unfold trunc. cbn. apply Z.quot_opp_l. discriminate. Qed.

Lemma trunc_nonneg (q : Q) :
  (0 <= q)%Q ->
  0 <= trunc q /\ (inject_Z (trunc q) <= q)%Q /\ (q < inject_Z (trunc q) + 1)%Q.
Proof.
  intros Hq. rewrite trunc_floor by assumption.
  split; [|split].
  - change 0 with (Qfloor 0). apply Qfloor_resp_le, Hq.
  - apply Qfloor_le.
  - pose proof (Qlt_floor q) as H. rewrite inject_Z_plus in H. exact H.
Qed.

Lemma trunc_nonpos (q : Q) :
  (q <= 0)%Q ->
  trunc q <= 0 /\ (q <= inject_Z (trunc q))%Q /\ (inject_Z (trunc q) - 1 < q)%Q.
Proof.
  intros Hq.
  assert (Hopp : (0 <= - q)%Q) by lra.
  destruct (trunc_nonneg (- q) Hopp) as (H0 & Hle & Hlt).
  rewrite trunc_opp in *. rewrite inject_Z_opp in *.
  split; [lia|]. split; lra.
Qed.

Lemma trunc_eq0 (q : Q) : (q == 0)%Q -> trunc q = 0.
Proof. intros H. apply trunc_inject. exact H. Qed.

Section FloatMoves.

Variable hw : list event -> string -> Z.

(** X6.  With no limits set, [go] to a float target stops on the whole
    count met last on the way from the start to the target: the
    position reached lies between the start and the target, less than
    one count short of the target, and never beyond it. *)
Theorem go_float (q : Q) (block : bool) (w : world) :
  lim_lower (self w) = None ->
  lim_upper (self w) = None ->
  let c := inject_Z (counts (self w)) in
  let c' := inject_Z (counts (self (snd (go hw (Float q) block w)))) in
  ((c <= q)%Q -> (c <= c')%Q /\ (c' <= q)%Q /\ (q < c' + 1)%Q) /\
  ((q <= c)%Q -> (q <= c')%Q /\ (c' <= c)%Q /\ (c' - 1 < q)%Q).
Proof.
  intros Hlow Hup. cbv zeta. rewrite go_counts. unfold clamp.
  rewrite Hlow, Hup. cbn [num_sub_int int].
  set (t := (q - inject_Z (counts (self w)))%Q).
  assert (E : counts (self w) + (if trunc t >? 0 then trunc t else trunc t)
              = counts (self w) + trunc t) by (destruct (trunc t >? 0); reflexivity).
  rewrite E. rewrite inject_Z_plus.
  split; intros Hdir.
  - destruct (trunc_nonneg t) as (H0 & Hle & Hlt); [unfold t; lra|].
    assert (0 <= inject_Z (trunc t))%Q by (rewrite <- (Zle_Qle 0); exact H0).
    unfold t in *. repeat split; lra.
  - destruct (trunc_nonpos t) as (H0 & Hle & Hlt); [unfold t; lra|].
    assert (inject_Z (trunc t) <= 0)%Q by (rewrite <- (Zle_Qle _ 0); exact H0).
    unfold t in *. repeat split; lra.
Qed.

(** X7.  With a positive slope and no limits set, [increment_cal]
    returns, and the displacement it makes, in calibrated units, has
    the sign of the request, is never larger than the request in
    magnitude, and falls short of it by less than one count (one
    slope). *)
Theorem increment_cal_displacement (value : Q) (w : world) :
  (0 < cal_slope (self w))%Q ->
  lim_lower (self w) = None ->
  lim_upper (self w) = None ->
  let m := self w in
  let w' := snd (increment_cal hw value false w) in
  let d := (to_physical m (counts (self w')) - to_physical m (counts m))%Q in
  fst (increment_cal hw value false w) = Ok tt /\
  ((0 <= value)%Q -> (0 <= d)%Q /\ (d <= value)%Q /\ (value - d < cal_slope m)%Q) /\
  ((value <= 0)%Q -> (value <= d)%Q /\ (d <= 0)%Q /\ (d - value < cal_slope m)%Q).
Proof.
  intros Hslope Hlow Hup. cbv zeta.
  assert (Hne : ~ (cal_slope (self w) == 0)%Q) by (apply Qpos_neq0; assumption).
  unfold increment_cal, mbind, M_bind, lift. cbn.
  rewrite py_div_ok by assumption.
  set (t := (value / cal_slope (self w))%Q).
  rewrite increment_eq. cbn [fst snd]. unfold commanded, clamp.
  rewrite Hlow, Hup. cbn [self counts set_counts int].
  assert (E : counts (self w) + (if trunc t >? 0 then trunc t else trunc t)
              = counts (self w) + trunc t) by (destruct (trunc t >? 0); reflexivity).
  rewrite E. unfold to_physical. rewrite inject_Z_plus.
  assert (Ht : (cal_slope (self w) * t == value)%Q).
  { unfold t. field. assumption. }
  split; [reflexivity|].
  split; intros Hdir.
  - destruct (trunc_nonneg t) as (H0 & Hle & Hlt).
    { unfold t. apply Qdiv_nonneg; assumption. }
    assert (0 <= inject_Z (trunc t))%Q by (rewrite <- (Zle_Qle 0); exact H0).
    repeat split; nra.
  - destruct (trunc_nonpos t) as (H0 & Hle & Hlt).
    { assert (Heq : (- t == (- value) / cal_slope (self w))%Q)
        by (unfold t; field; assumption).
      assert (H1 : (0 <= (- value) / cal_slope (self w))%Q)
        by (apply Qdiv_nonneg; [lra | assumption]).
      rewrite <- Heq in H1. lra. }
    assert (inject_Z (trunc t) <= 0)%Q by (rewrite <- (Zle_Qle _ 0); exact H0).
    repeat split; nra.
Qed.

End FloatMoves.

(** The scenario of X6: from 0 to 2.7 the motor stops at 2; the
    polarizer has no limits. *)
Lemma go_float_witness :
  lim_lower (self polarizer) = None /\
  lim_upper (self polarizer) = None /\
  counts (self (snd (go sim_hw (Float (27 # 10)) false polarizer))) = 2 /\
  (inject_Z (counts (self (snd (go sim_hw (Float (27 # 10)) false polarizer)))) <= 27 # 10)%Q.
Proof.
  split; [reflexivity|]. split; [reflexivity|]. split; [reflexivity|].
  destruct (go_float sim_hw (27 # 10) false polarizer eq_refl eq_refl) as (Hup & _).
  apply Hup. vm_compute. discriminate.
Defined.

(** The scenario of X7: at 0.9 degrees per count, a request of 2 degrees
    moves 2 counts, that is 1.8 degrees. *)
Lemma increment_cal_displacement_witness :
  (0 < cal_slope (self in_degrees))%Q /\
  counts (self (snd (increment_cal sim_hw 2 false in_degrees))) = 2 /\
  fst (increment_cal sim_hw 2 false in_degrees) = Ok tt.
Proof.
  split; [reflexivity|]. split; [reflexivity|].
  apply (increment_cal_displacement sim_hw 2 in_degrees); reflexivity.
Defined.


(** ** Calibrated moves and the calibration *)

Lemma to_counts_get_cal (m : Motor) :
  (0 < cal_slope m)%Q ->
  exists q, to_counts m (get_cal m) = Ok q /\ (q == inject_Z (counts m))%Q.
Proof.
  intros Hslope. apply Qpos_neq0 in Hslope.
  unfold to_counts. rewrite py_div_ok by assumption. cbn.
  eexists. split; [reflexivity|].
  unfold get_cal, to_physical. field. assumption.
Qed.

Section CalibratedMoves.

Variable hw : list event -> string -> Z.

(** X8.  With a positive slope, [go_cal] to the calibrated position
    that [get_cal] reports does not move the motor, provided the
    position is not below a lower limit: it returns after a move of zero
    pulses, and the position is unchanged. *)
Theorem go_cal_here (w : world) :
  (0 < cal_slope (self w))%Q ->
  (forall l, lim_lower (self w) = Some l -> l <= counts (self w)) ->
  go_cal hw (get_cal (self w)) w =
    (Ok tt, mkWorld (self w)
              (EvWrite (pulse_reg (self w)) 0
                 :: EvWrite (dir_reg (self w)) (bool_int (invert (self w)))
                 :: io w)).
Proof.
  intros Hslope Hlow.
  destruct (to_counts_get_cal (self w) Hslope) as (q & Eq & Hq).
  unfold go_cal, go, mbind, M_bind, lift. cbn. rewrite Eq. cbn.
  rewrite increment_eq. unfold commanded. cbn [num_sub_int int].
  assert (Ht : trunc (q - inject_Z (counts (self w))) = 0).
  { apply trunc_eq0. rewrite Hq. ring. }
  rewrite Ht. unfold clamp. cbn.
  assert (Hc : match lim_lower (self w) with
               | Some l => Z.max 0 (l - counts (self w))
               | None => 0
               end = 0).
  { destruct (lim_lower (self w)) as [l|]; [specialize (Hlow l eq_refl); lia | reflexivity]. }
  rewrite Hc. rewrite Z.add_0_r.
  destruct (self w) as [inv dp dr pp pr hp hr c cz cs cu lu ll]. cbn.
  destruct inv; reflexivity.
Qed.

End CalibratedMoves.

(** The scenario of X8: the motor in degrees, at its position. *)
Lemma go_cal_here_witness :
  (0 < cal_slope (self in_degrees))%Q /\
  fst (go_cal sim_hw (get_cal (self in_degrees)) in_degrees) = Ok tt /\
  self (snd (go_cal sim_hw (get_cal (self in_degrees)) in_degrees)) = self in_degrees.
Proof.
  assert (Hl : forall l, lim_lower (self in_degrees) = Some l -> l <= counts (self in_degrees))
    by (intros l H; vm_compute in H; discriminate H).
  split; [reflexivity|].
  rewrite (go_cal_here sim_hw in_degrees eq_refl Hl). split; reflexivity.
Defined.


Lemma Qleb_false (x y : Q) : Qleb x y = false <-> (y < x)%Q.
Proof. unfold Qleb, Qlt. rewrite Z.leb_gt. reflexivity. Qed.

Lemma Qleb_true (x y : Q) : Qleb x y = true <-> (x <= y)%Q.
Proof. unfold Qleb, Qle. rewrite Z.leb_le. reflexivity. Qed.

Lemma slope_positive_call (hw : list event -> string -> Z) (c : call) (w : world) :
  is_load c = false ->
  (0 < cal_slope (self w))%Q -> (0 < cal_slope (self (run_call hw c w)))%Q.
Proof.
  intros Hc H.
  set (P := fun m : Motor => (0 < cal_slope m)%Q) in *.
  assert (Hclosed : motion_closed P) by (intros m v Hm; exact Hm).
  assert (Hblind : pins_blind P) by (intros m Hm; repeat split; intros; exact Hm).
  change (P (self (run_call hw c w))). change (P (self w)) in H.
  destruct c; try discriminate Hc; unfold run_call, exec.
  - apply keeps_get_clock, H.
  - apply keeps_get_clock_hz, H.
  - apply keeps_set_clock, H.
  - apply keeps_set_clock_hz, H.
  - apply keeps_set_pins; assumption.
  - apply keeps_home; assumption.
  - apply keeps_increment; assumption.
  - apply keeps_increment_cal; assumption.
  - apply keeps_go; assumption.
  - apply keeps_go_cal; assumption.
  - unfold set_cal. destruct (Qleb slope 0) eqn:E; [exact H|].
    apply Qleb_false in E. exact E.
  - apply keeps_save, H.
Qed.

(** X9.  In every session from a fresh motor that does not call [load],
    the slope of the calibration is positive, whichever calls raise:
    [set_cal] is the only call that sets it, and it refuses a slope
    that is not positive.  So the conversions of [go_cal] and
    [increment_cal] never divide by zero in such a session. *)
Theorem session_slope_positive (hw : list event -> string -> Z) (cs : list call) :
  forallb (fun c => negb (is_load c)) cs = true ->
  let m := self (run_calls hw cs fresh) in
  (0 < cal_slope m)%Q /\
  (forall target, exists q, to_counts m target = Ok q).
Proof.
  intros Hcs. cbv zeta.
  assert (H : (0 < cal_slope (self (run_calls hw cs fresh)))%Q).
  { unfold run_calls.
    assert (H0 : (0 < cal_slope (self fresh))%Q) by reflexivity.
    revert H0 Hcs. generalize fresh.
    induction cs as [|c cs IH]; intros w Hw Hcs; [exact Hw|].
    cbn [fold_left]. cbn [forallb] in Hcs. apply andb_true_iff in Hcs as [Hc Hcs].
    apply IH; [|exact Hcs]. apply slope_positive_call; [|exact Hw].
    apply negb_true_iff, Hc. }
  split; [exact H|].
  intros target. unfold to_counts.
  rewrite py_div_ok by (apply Qpos_neq0, H). cbn. eexists. reflexivity.
Qed.

(** The scenario of X9: a session that sets a calibration, fails to set
    another with slope 0, and moves. *)
Lemma session_slope_positive_witness :
  cal_slope (self (run_calls sim_hw
      [Call_set_pins (Int 4) (Int 6) (Int 8) false;
       Call_set_cal 0 (9 # 10) "deg"; Call_set_cal 0 0 "deg";
       Call_go_cal 90] fresh)) = (9 # 10)%Q /\
  (0 < cal_slope (self (run_calls sim_hw
      [Call_set_pins (Int 4) (Int 6) (Int 8) false;
       Call_set_cal 0 (9 # 10) "deg"; Call_set_cal 0 0 "deg";
       Call_go_cal 90] fresh)))%Q.
Proof.
  split; [reflexivity|].
  apply (session_slope_positive sim_hw
           [Call_set_pins (Int 4) (Int 6) (Int 8) false;
            Call_set_cal 0 (9 # 10) "deg"; Call_set_cal 0 0 "deg";
            Call_go_cal 90]).
  reflexivity.
Defined.

(** ** The limit state *)

Section LimitState.

Variable hw : list event -> string -> Z.

(** X10.  When [increment] cuts a move short, that is, when the delta it
    applies differs from the delta requested, the motor ends on the
    limit that cut it and [get_lim_state] is true afterwards. *)
Theorem cut_move_sets_limit_state (value : num) (block : bool) (w : world) :
  clamp (self w) (int value) <> int value ->
  let m' := self (snd (increment hw value block w)) in
  get_lim_state m' = true /\
  (lim_upper (self w) = Some (counts m') \/ lim_lower (self w) = Some (counts m')).
Proof.
  intros Hcut. cbv zeta. rewrite increment_self. unfold commanded, get_lim_state.
  cbn [self counts lim_lower lim_upper set_counts].
  unfold clamp in *.
  destruct (Z.gtb_spec (int value) 0) as [Hpos|Hneg].
  - destruct (lim_upper (self w)) as [u|]; [|contradiction].
    assert (E : counts (self w) + Z.min (int value) (u - counts (self w)) = u) by lia.
    rewrite E. split; [|left; reflexivity].
    destruct (lim_lower (self w)) as [l|].
    + destruct (u <=? l); [reflexivity|].
      destruct (Z.geb_spec u u); [reflexivity | lia].
    + destruct (Z.geb_spec u u); [reflexivity | lia].
  - destruct (lim_lower (self w)) as [l|]; [|contradiction].
    assert (E : counts (self w) + Z.max (int value) (l - counts (self w)) = l) by lia.
    rewrite E. split; [|right; reflexivity].
    rewrite Z.leb_refl. reflexivity.
Qed.

End LimitState.

(** The scenario of X10: the move of 50 from 90 with limit 100. *)
Lemma cut_move_sets_limit_state_witness :
  clamp (self near_upper) 50 = 10 /\
  get_lim_state (self (snd (increment sim_hw (Int 50) false near_upper))) = true.
Proof.
  split; [reflexivity|].
  apply (cut_move_sets_limit_state sim_hw (Int 50) false near_upper).
  vm_compute. discriminate.
Defined.


(** ** Homing: the edges *)

Lemma clock_hz_zero (roll divisor : Z) :
  roll = 0 \/ divisor = 0 -> clock_hz roll divisor = Raise ZeroDivisionError.
Proof.
  intros H. unfold clock_hz.
  destruct (Z.eq_dec divisor 0) as [->|Hd]; [reflexivity|].
  destruct H as [->|H]; [|contradiction].
  rewrite py_div_ok; [reflexivity|].
  unfold Qeq. cbn. lia.
Qed.

Lemma attempt_self (hw : list event -> string -> Z) (v : num) (w : world) :
  self (attempt hw v w) = self (commanded v w).
Proof.
  unfold attempt, mbind, M_bind.
  pose proof (increment_self hw v true w) as H.
  destruct (increment hw v true w) as [[u|e] w1]; cbn in *; exact H.
Qed.

Section HomingEdges.

Variable hw : list event -> string -> Z.

(** X11.  With a home pin bound and [max_tries] zero or negative, [home]
    reads the home pin once and returns [False] without moving. *)
Theorem home_no_tries (increment_ : num) (max_tries : Z) (w : world) :
  home_reg (self w) <> "" ->
  max_tries <= 0 ->
  home hw increment_ max_tries w =
    (Ok false,
     mkWorld (self w)
       (EvRead (home_reg (self w)) (hw (io w) (home_reg (self w))) :: io w)).
Proof.
  intros Hbound Hn. unfold home, mbind, M_bind. cbn.
  apply String.eqb_neq in Hbound. rewrite Hbound.
  replace (Z.to_nat max_tries) with O by lia. reflexivity.
Qed.

(** X12.  On a device whose clock divisor, or whose clock roll, reads
    0, as after power-up, a blocking move raises [ZeroDivisionError],
    but only after the pulses were commanded and the position updated;
    [home] with a bound pin and at least one try fails in this way on
    its first try, with the position already advanced. *)
Theorem unclocked_blocking_move (increment_ : num) (max_tries : Z) (w : world) :
  (forall l, hw l "DIO_EF_CLOCK0_DIVISOR" = 0) \/
  (forall l, hw l "DIO_EF_CLOCK0_ROLL_VALUE" = 0) ->
  let m := self w in
  let moved := set_counts (counts m + clamp m (int increment_)) m in
  (fst (increment hw increment_ true w) = Raise ZeroDivisionError /\
   self (snd (increment hw increment_ true w)) = moved /\
   writes (io (snd (increment hw increment_ true w))) =
     (writes (io w) ++
      [(dir_reg m, bool_int (if invert m then negb (int increment_ >? 0)
                             else int increment_ >? 0));
       (pulse_reg m, Z.abs (clamp m (int increment_)))])%list) /\
  (home_reg m <> "" -> 0 < max_tries ->
   fst (home hw increment_ max_tries w) = Raise ZeroDivisionError /\
   self (snd (home hw increment_ max_tries w)) = moved).
Proof.
  intros Hclock. cbv zeta.
  assert (Hinc : forall w0, exists l,
    increment hw increment_ true w0 =
      (Raise ZeroDivisionError, mkWorld (self (commanded increment_ w0)) l) /\
    writes l = writes (io (commanded increment_ w0))).
  { intros w0. rewrite increment_eq.
    unfold wait, get_clock_hz, get_clock, eReadName, lift, mbind, M_bind, mret, M_ret.
    cbn [fst snd self io].
    set (d := hw (io (commanded increment_ w0)) "DIO_EF_CLOCK0_DIVISOR").
    set (r := hw (EvRead "DIO_EF_CLOCK0_DIVISOR" d :: io (commanded increment_ w0))
                "DIO_EF_CLOCK0_ROLL_VALUE").
    assert (Hz : r = 0 \/ d = 0).
    { destruct Hclock as [H|H]; [right | left]; apply H. }
    rewrite (clock_hz_zero r d Hz). eexists. split; reflexivity. }
  split.
  - destruct (Hinc w) as (l & E & Hl). rewrite E. cbn [fst snd self io].
    split; [reflexivity|]. split; [reflexivity|].
    rewrite Hl. unfold commanded, writes. cbn. rewrite <- app_assoc. reflexivity.
  - intros Hbound Hn. unfold home, mbind, M_bind. cbn [get_self fst snd].
    apply String.eqb_neq in Hbound. rewrite Hbound.
    destruct (Z.to_nat max_tries) as [|n] eqn:En; [lia|].
    cbn [home_loop eReadName]. unfold mbind, M_bind.
    destruct (Hinc (mkWorld (self w)
                      (EvRead (home_reg (self w)) (hw (io w) (home_reg (self w))) :: io w)))
      as (l & E & _).
    rewrite E. cbn. split; reflexivity.
Qed.

End HomingEdges.

(** The scenario of X11: the polarizer, no tries. *)
Lemma home_no_tries_witness :
  home_reg (self polarizer) <> "" /\
  fst (home sim_hw (Int 5) 0 polarizer) = Ok false /\
  counts (self (snd (home sim_hw (Int 5) 0 polarizer))) = 0.
Proof.
  assert (Hb : home_reg (self polarizer) <> "") by (vm_compute; discriminate).
  split; [exact Hb|].
  rewrite (home_no_tries sim_hw (Int 5) 0 polarizer Hb); [|lia].
  split; reflexivity.
Defined.

(** The scenario of X12: the polarizer on a device that reads 0
    everywhere; [home(5)] fails at 5 counts. *)
Lemma unclocked_blocking_move_witness :
  (forall l, zero_hw l "DIO_EF_CLOCK0_DIVISOR" = 0) /\
  fst (home zero_hw (Int 5) 100 polarizer) = Raise ZeroDivisionError /\
  counts (self (snd (home zero_hw (Int 5) 100 polarizer))) = 5.
Proof.
  assert (Hz : forall l, zero_hw l "DIO_EF_CLOCK0_DIVISOR" = 0) by (intros l; reflexivity).
  split; [exact Hz|].
  destruct (unclocked_blocking_move zero_hw (Int 5) 100 polarizer (or_introl Hz))
    as (_ & Hhome).
  destruct Hhome as (E1 & E2); [vm_compute; discriminate | lia |].
  split; [exact E1|]. rewrite E2. vm_compute. reflexivity.
Defined.

(** ** Loading and saving: what the caller sees *)

Section LoadRefusal.

Variable hw : list event -> string -> Z.

(** X13.  [load] raises an exception of its own exactly for a record
    that lacks a mandatory field, or that has all of them and some
    unknown key other than the empty string; the message tells which.
    When it does, nothing has happened: no register was read or
    written and the motor object is untouched. *)
Theorem load_refusal (config : gmap string jvalue) (w : world) :
  (forall msg,
     fst (load hw config w) = Raise (Exception msg) <->
     (~ (mandatory ⊆ dom config) /\ msg = "Missing mandatory parameters: ") \/
     (mandatory ⊆ dom config /\
      (exists k, (k ∈ dom config) /\ (k ∉ allowed) /\ k <> "") /\
      msg = "Illegal configuration parameters: ")) /\
  (forall msg,
     fst (load hw config w) = Raise (Exception msg) -> snd (load hw config w) = w).
Proof.
  split; [intros msg; apply load_exceptions|].
  intros msg E. apply load_exceptions in E.
  destruct E as [(Hmiss & _) | (Hall & Hk & _)].
  - rewrite load_missing by assumption. reflexivity.
  - rewrite load_illegal by assumption. reflexivity.
Qed.

End LoadRefusal.

(** ** The clock, written and read back *)

Lemma Qabs_Qabs (f : Q) : Qabs (Qabs f) = Qabs f.
Proof. destruct f as [n d]. unfold Qabs. rewrite Z.abs_idemp. reflexivity. Qed.

Lemma clock_settings_abs (f : Q) : clock_settings (Qabs f) = clock_settings f.
Proof. unfold clock_settings. rewrite Qabs_Qabs. reflexivity. Qed.

(** The settings for a target that is not 0 and not above the base
    clock, whatever its sign. *)
Lemma clock_settings_in_range (f : Q) :
  ~ (f == 0)%Q -> (Qabs f <= 80000000)%Q ->
  exists roll divisor : Z,
    clock_settings f = Ok (roll, divisor) /\
    1 <= roll <= 0xFFFFFFFF /\ 0 < divisor /\
    within_one_step (Qabs f) roll divisor.
Proof.
  intros Hne Hle. rewrite <- clock_settings_abs.
  set (g := Qabs f) in *.
  assert (Hg : (0 < g)%Q).
  { unfold g. clear - Hne. destruct f as [n d].
    unfold Qlt, Qeq, Qabs in *. cbn in *. lia. }
  assert (Habs : Qabs g = g) by apply Qabs_Qabs.
  set (q := (80000000 / g)%Q).
  assert (Hq : (0 < q)%Q) by (apply Qdiv_pos; [reflexivity | assumption]).
  assert (Htr : trunc q = Qfloor q) by (apply trunc_floor, Qlt_le_weak, Hq).
  assert (Hfl : 1 <= Qfloor q).
  { change 1 with (Qfloor 1). apply Qfloor_resp_le.
    unfold q. apply Qle_shift_div_l; [assumption|]. rewrite Qmult_1_l. assumption. }
  destruct (set_clock_hz_loop_spec (Z.to_nat (Z.log2 (Qfloor q))) (Qfloor q) 1)
    as (k & E & Hfit & Hmin); [lia | |].
  { pose proof (Z.log2_nonneg (Qfloor q)). lia. }
  destruct (shiftr_bounds (Qfloor q) k) as (Hd & Hr & Hlow & Hhigh); [lia|].
  assert (H1 : 1 <= Z.shiftr (Qfloor q) (Z.of_nat k)).
  { destruct k as [|k].
    - cbn [Z.of_nat]. rewrite Z.shiftr_0_r. exact Hfl.
    - assert (Hk : Z.shiftr (Qfloor q) (Z.of_nat k) > 0xFFFFFFFF) by (apply Hmin; lia).
      replace (Z.of_nat (S k)) with (Z.of_nat k + 1) by lia.
      rewrite <- Z.shiftr_shiftr by lia.
      rewrite (Z.shiftr_div_pow2 _ 1) by lia.
      change (2 ^ 1) with 2.
      apply Z.div_le_lower_bound; lia. }
  exists (Z.shiftr (Qfloor q) (Z.of_nat k)), (Z.shiftl 1 (Z.of_nat k)).
  split.
  { unfold clock_settings. rewrite Habs.
    rewrite py_div_ok by (apply Qpos_neq0; assumption).
    cbn. fold q. rewrite Htr, E. reflexivity. }
  split; [lia|]. split; [exact Hd|].
  apply approximates; assumption.
Qed.

Section ClockReadBack.

Variable hw : list event -> string -> Z.
Hypothesis divisor_latched : latched hw "DIO_EF_CLOCK0_DIVISOR".
Hypothesis roll_latched : latched hw "DIO_EF_CLOCK0_ROLL_VALUE".

Lemma get_clock_after_set_clock (roll divisor : num) (w : world) :
  fst ((set_clock roll divisor;; get_clock hw) w) = Ok (int roll, int divisor).
Proof.
  unfold set_clock, get_clock, eWriteName, eReadName, mbind, M_bind, mret, M_ret.
  cbn [fst snd self io].
  rewrite (divisor_latched _ (int divisor)) by reflexivity.
  rewrite (roll_latched _ (int roll)) by reflexivity.
  reflexivity.
Qed.

(** X14.  On a device whose two clock registers read back what was
    written to them, [get_clock] after [set_clock] returns the roll and
    the divisor given, as integers; and for a target that is not 0 and
    not above 80 MHz in magnitude, [get_clock_hz] after [set_clock_hz]
    returns a rate within one quantization step of the magnitude of the
    target, whatever the sign of the target. *)
Theorem clock_read_back (w : world) :
  (forall roll divisor : num,
     fst ((set_clock roll divisor;; get_clock hw) w) = Ok (int roll, int divisor)) /\
  (forall f : Q, ~ (f == 0)%Q -> (Qabs f <= 80000000)%Q ->
     exists (F : Q) (roll divisor : Z),
       fst ((set_clock_hz f;; get_clock_hz hw) w) = Ok F /\
       clock_settings f = Ok (roll, divisor) /\
       clock_hz roll divisor = Ok F /\
       (Qabs f <= F)%Q /\
       (80000000 / inject_Z divisor / inject_Z (roll + 1) < Qabs f)%Q).
Proof.
  split; [intros roll divisor; apply get_clock_after_set_clock|].
  intros f Hne Hle.
  destruct (clock_settings_in_range f Hne Hle)
    as (roll & divisor & E & Hroll & Hdiv & (F & EF & Hlow & Hup)).
  exists F, roll, divisor.
  split; [|auto].
  pose proof (get_clock_after_set_clock (Int roll) (Int divisor) w) as Hget.
  unfold set_clock_hz, get_clock_hz, lift, mbind, M_bind in *.
  rewrite E. cbn [fst snd] in *.
  destruct (set_clock (Int roll) (Int divisor) w) as [[u|e] w1]; cbn in *; [|discriminate].
  destruct (get_clock hw w1) as [[[r d]|e] w2]; cbn in *; [|discriminate].
  injection Hget as -> ->. rewrite EF. reflexivity.
Qed.

End ClockReadBack.

Lemma latch_hw_latched (name : string) : latched latch_hw name.
Proof. intros l v H. unfold latch_hw. rewrite H. reflexivity. Qed.

(** The scenario of X14: 1 kHz on the latching device. *)
Lemma clock_read_back_witness :
  latched latch_hw "DIO_EF_CLOCK0_DIVISOR" /\
  latched latch_hw "DIO_EF_CLOCK0_ROLL_VALUE" /\
  fst ((set_clock (Int 80000) (Int 1);; get_clock latch_hw) fresh) = Ok (80000, 1) /\
  fst ((set_clock_hz 1000;; get_clock_hz latch_hw) fresh) = Ok (80000000 / 1 / 80000)%Q.
Proof.
  split; [apply latch_hw_latched|]. split; [apply latch_hw_latched|].
  destruct (clock_read_back latch_hw (latch_hw_latched _) (latch_hw_latched _) fresh)
    as (Hget & _).
  split; [apply (Hget (Int 80000) (Int 1)) | reflexivity].
Defined.

(** ** Binding the pins: the direction mask and re-binding *)

Lemma testbit_shl1 (n i : Z) : 0 <= n -> Z.testbit (Z.shiftl 1 n) i = (n =? i).
Proof. intros Hn. rewrite Z.shiftl_1_l. apply Z.pow2_bits_eqb. exact Hn. Qed.

Lemma testbit_32_ones (i : Z) : 0 <= i -> Z.testbit 0xFFFFFFFF i = (i <? 32).
Proof.
  intros Hi. change 0xFFFFFFFF with (Z.ones 32).
  destruct (Z.ltb_spec i 32).
  - apply Z.ones_spec_low. lia.
  - apply Z.ones_spec_high. lia.
Qed.

Section Mask.

Variable hw : list event -> string -> Z.

(** X15.  When [set_pins] succeeds, the second register it writes is the
    direction mask, after the analog enable.  In the mask the bits of
    the pulse pin and of the direction pin are set and every other bit
    is as the device reported it, when no home pin is bound.  With a
    home pin bound, among the bits below 32 the bit of the home pin is
    cleared, also when the home pin is the pulse or the direction pin;
    the bits from 32 up are cleared, except the bit of a home pin
    numbered 32 or more, which is kept. *)
Theorem set_pins_mask (dir_pin_ pulse_pin_ home_pin_ : num) (invert_ : bool) (w : world) :
  0 <= int dir_pin_ -> 0 <= int pulse_pin_ ->
  let old := hw (io w) "DIO_DIRECTION" in
  let outputs := fun i =>
    (i =? int pulse_pin_) || (i =? int dir_pin_) || Z.testbit old i in
  exists (mask : Z) (newer older : list event),
    io (snd (set_pins hw dir_pin_ pulse_pin_ home_pin_ invert_ w)) =
      (newer ++ EvWrite "DIO_DIRECTION" mask
             :: EvWrite "DIO_ANALOG_ENABLE" 15 :: older)%list /\
    writes older = writes (io w) /\
    forall i, 0 <= i ->
      Z.testbit mask i =
        if Qleb 0 (num_Q home_pin_)
        then outputs i && xorb (i <? 32) (i =? int home_pin_)
        else outputs i.
Proof.
  intros Hd Hp. cbv zeta.
  unfold set_pins, get_clock, mbind, M_bind, mret, M_ret, modify_self, get_self,
    eReadName, eWriteName, lift.
  cbn [fst snd self io].
  rewrite !py_shl_ok by assumption. cbn [fst snd self io].
  destruct (Qleb 0 (num_Q home_pin_)) eqn:Hh; cbn [fst snd self io].
  - pose proof (int_nonneg _ Hh) as Hhome.
    rewrite py_shl_ok by assumption. cbn [fst snd self io].
    eexists _, [_; _; _; _; _; _; _; _; _; _], _.
    split; [reflexivity|]. split; [reflexivity|].
    intros i Hi.
    rewrite Z.land_spec, Z.lxor_spec, !Z.lor_spec, !testbit_shl1, testbit_32_ones
      by assumption.
    rewrite (Z.eqb_sym (int pulse_pin_)), (Z.eqb_sym (int dir_pin_)),
      (Z.eqb_sym (int home_pin_)).
    destruct (Z.testbit (hw (io w) "DIO_DIRECTION") i), (i =? int pulse_pin_),
      (i =? int dir_pin_), (i =? int home_pin_), (i <? 32); reflexivity.
  - eexists _, [_; _; _; _; _; _; _; _; _; _], _.
    split; [reflexivity|]. split; [reflexivity|].
    intros i Hi.
    rewrite !Z.lor_spec, !testbit_shl1 by assumption.
    rewrite (Z.eqb_sym (int pulse_pin_)), (Z.eqb_sym (int dir_pin_)).
    destruct (Z.testbit (hw (io w) "DIO_DIRECTION") i), (i =? int pulse_pin_),
      (i =? int dir_pin_); reflexivity.
Qed.

End Mask.

(** The scenario of X15: binding the polarizer on a device whose mask
    reads 0 gives the mask with bits 4 and 6. *)
Lemma set_pins_mask_witness :
  written_to "DIO_DIRECTION" (io polarizer) = [80] /\
  exists (mask : Z) (newer older : list event),
    io polarizer =
      (newer ++ EvWrite "DIO_DIRECTION" mask
             :: EvWrite "DIO_ANALOG_ENABLE" 15 :: older)%list /\
    writes older = writes (io fresh).
Proof.
  split; [vm_compute; reflexivity|].
  destruct (set_pins_mask sim_hw (Int 4) (Int 6) (Int 8) false fresh)
    as (mask & newer & older & E & Hw & _); [cbn; lia | cbn; lia |].
  exists mask, newer, older. split; [exact E | exact Hw].
Defined.

Section Rebinding.

Variable hw : list event -> string -> Z.

(** X16.  Binding the pins again with the same arguments leaves the
    motor object as the first binding left it, whether the binding
    succeeds or fails.  A binding with a direction and a pulse pin that
    are not negative replaces the whole previous binding: the pins, the
    register names and the inversion flag are those of the arguments,
    and the position, the calibration and the limits are untouched. *)
Theorem set_pins_again (dir_pin_ pulse_pin_ home_pin_ : num) (invert_ : bool) (w : world) :
  let bind := fun w0 => snd (set_pins hw dir_pin_ pulse_pin_ home_pin_ invert_ w0) in
  self (bind (bind w)) = self (bind w) /\
  (0 <= int dir_pin_ -> 0 <= int pulse_pin_ ->
   self (bind w) =
     mkMotor invert_
       (int dir_pin_) ("DIO" +:+ pretty (int dir_pin_))
       (int pulse_pin_) ("DIO" +:+ pretty (int pulse_pin_) +:+ "_EF_CONFIG_C")
       (if Qleb 0 (num_Q home_pin_) then int home_pin_ else -1)
       (if Qleb 0 (num_Q home_pin_) then "DIO" +:+ pretty (int home_pin_) else "")
       (counts (self w)) (cal_zero (self w)) (cal_slope (self w)) (cal_units (self w))
       (lim_upper (self w)) (lim_lower (self w))).
Proof.
  cbv zeta.
  set (m1 := fun m : Motor =>
    set_invert invert_
      (set_pulse (int pulse_pin_) ("DIO" +:+ pretty (int pulse_pin_) +:+ "_EF_CONFIG_C")
         (set_dir (int dir_pin_) ("DIO" +:+ pretty (int dir_pin_)) m))).
  set (F := fun m : Motor =>
    if (int pulse_pin_ <? 0) || (int dir_pin_ <? 0) then m1 m
    else if Qleb 0 (num_Q home_pin_)
         then set_home (int home_pin_) ("DIO" +:+ pretty (int home_pin_)) (m1 m)
         else set_home (-1) "" (m1 m)).
  assert (HF : forall w0,
    self (snd (set_pins hw dir_pin_ pulse_pin_ home_pin_ invert_ w0)) = F (self w0)).
  { intros w0. unfold F, m1.
    unfold set_pins, get_clock, mbind, M_bind, mret, M_ret, modify_self, get_self,
      eReadName, eWriteName, lift, py_shl.
    cbn [fst snd self io].
    destruct (int pulse_pin_ <? 0); cbn [fst snd self io orb]; [reflexivity|].
    destruct (int dir_pin_ <? 0); cbn [fst snd self io orb]; [reflexivity|].
    destruct (Qleb 0 (num_Q home_pin_)) eqn:Hh; cbn [fst snd self io].
    - pose proof (int_nonneg _ Hh) as Hhome. apply Z.ltb_ge in Hhome.
      rewrite Hhome. reflexivity.
    - reflexivity. }
  split.
  - rewrite !HF. unfold F, m1.
    destruct ((int pulse_pin_ <? 0) || (int dir_pin_ <? 0)),
      (Qleb 0 (num_Q home_pin_)); reflexivity.
  - intros Hd Hp. rewrite HF. unfold F, m1.
    apply Z.ltb_ge in Hd, Hp. rewrite Hd, Hp. cbn [orb].
    destruct (Qleb 0 (num_Q home_pin_)); reflexivity.
Qed.

End Rebinding.

(** The scenario of X16: the polarizer bound twice. *)
Lemma set_pins_again_witness :
  self (snd (set_pins sim_hw (Int 4) (Int 6) (Int 8) false polarizer)) = self polarizer.
Proof.
  destruct (set_pins_again sim_hw (Int 4) (Int 6) (Int 8) false fresh) as (H & _).
  exact H.
Defined.

(** ** The record of [save], loaded *)

Section SavedRecord.

Variable m : Motor.
Variables roll divisor : Z.

Let config : gmap string jvalue := list_to_map (save_config m roll divisor).

Lemma saved_checks :
  any (mandatory ∖ dom config) = false /\ any (dom config ∖ allowed) = false.
Proof. split; vm_compute; reflexivity. Qed.

Lemma saved_lookups :
  config !! "clock_roll" = Some (JInt roll) /\
  config !! "clock_divisor" = Some (JInt divisor) /\
  config !! "dir_pin" = Some (JInt (dir_pin m)) /\
  config !! "pulse_pin" = Some (JInt (pulse_pin m)) /\
  config !! "home_pin" = Some (JInt (home_pin m)) /\
  config !! "invert" = Some (JBool (invert m)) /\
  config !! "cal_slope" = Some (JFloat (cal_slope m)) /\
  config !! "cal_zero" = Some (JFloat (cal_zero m)) /\
  config !! "cal_units" = Some (JStr (cal_units m)) /\
  config !! "lim_upper" = Some (limit_json (lim_upper m)) /\
  config !! "lim_lower" = Some (limit_json (lim_lower m)).
Proof. repeat split; vm_compute; reflexivity. Qed.

End SavedRecord.

Lemma Qleb_0_inject (z : Z) : Qleb 0 (inject_Z z) = (0 <=? z).
Proof. unfold Qleb. cbn [Qnum Qden inject_Z]. rewrite !Z.mul_1_r. reflexivity. Qed.

Section LoadOfSave.

Variable hw : list event -> string -> Z.

(** X17.  The record that [save] builds for a motor whose pins are
    bound is accepted by [load], and loading it into any motor gives
    back the motor that was saved, the position apart: pins, register
    names, inversion flag, calibration and limits are those of the saved
    motor, and the position is the one the loading motor had. *)
Theorem load_of_save (m : Motor) (roll divisor : Z) (w : world) :
  0 <= dir_pin m -> 0 <= pulse_pin m -> names_ok m ->
  let config : gmap string jvalue := list_to_map (save_config m roll divisor) in
  fst (load hw config w) = Ok tt /\
  self (snd (load hw config w)) = set_counts (counts (self w)) m.
Proof.
  intros Hd Hp (Hdir & Hpulse & Hhome). cbv zeta.
  destruct (saved_checks m roll divisor) as [Hmiss Hill].
  destruct (saved_lookups m roll divisor)
    as (L1 & L2 & L3 & L4 & L5 & L6 & L7 & L8 & L9 & L10 & L11).
  unfold load, item, when_present. cbv zeta.
  rewrite Hmiss, Hill, L1, L2, L3, L4, L5, L6, L7, L8, L9, L10, L11.
  unfold set_pins, set_clock, get_clock, mbind, M_bind, result_bind, mret, M_ret,
    modify_self, get_self, eReadName, eWriteName, lift, jnum, jQ, jstr, jbool.
  cbn [fst snd self io int num_Q].
  rewrite !py_shl_ok by assumption. cbn [fst snd self io].
  rewrite Qleb_0_inject.
  destruct Hdir as [[Hneg _]|Hdr]; [lia|].
  destruct Hpulse as [[Hneg _]|Hpr]; [lia|].
  destruct m as [inv dp dr pp pr hp hr c cz cs cu lu ll]. cbn in *. subst dr pr.
  destruct Hhome as [[-> ->]|[Hh ->]].
  - cbn. destruct lu, ll; cbn; split; reflexivity.
  - apply Z.leb_le in Hh as Hb. rewrite Hb. cbn [fst snd self io].
    rewrite py_shl_ok by assumption. cbn.
    destruct lu, ll; cbn; split; reflexivity.
Qed.

End LoadOfSave.

(** The scenario of X17: the polarizer with an upper limit, saved and
    loaded into a fresh motor. *)
Lemma load_of_save_witness :
  names_ok (self near_upper) /\
  self (snd (load sim_hw (list_to_map (save_config (self near_upper) 80000 1)) fresh)) =
    set_counts 0 (self near_upper).
Proof.
  assert (Hn : names_ok (self near_upper)).
  { unfold names_ok. vm_compute. repeat split; right; try reflexivity.
    split; [discriminate | reflexivity]. }
  split; [exact Hn|].
  destruct (load_of_save sim_hw (self near_upper) 80000 1 fresh) as (_ & H);
    [vm_compute; discriminate | vm_compute; discriminate | exact Hn | exact H].
Defined.

(** ** Homing without limits *)

Lemma clamp_no_limits (m : Motor) (v : Z) :
  lim_lower m = None -> lim_upper m = None -> clamp m v = v.
Proof. intros Hl Hu. unfold clamp. rewrite Hl, Hu. destruct (v >? 0); reflexivity. Qed.

Section HomeTravel.

Variable hw : list event -> string -> Z.
Hypothesis clock : clock_ok hw.

Lemma home_loop_travel (v : num) (initial : Z) (n : nat) (w : world) :
  lim_lower (self w) = None -> lim_upper (self w) = None ->
  exists (k : nat) (found : bool),
    fst (home_loop hw n v initial w) = Ok found /\
    (k <= n)%nat /\
    counts (self (snd (home_loop hw n v initial w))) =
      counts (self w) + Z.of_nat k * int v /\
    waits (io (snd (home_loop hw n v initial w))) = (waits (io w) + k)%nat /\
    (found = true -> (1 <= k)%nat) /\
    (found = false -> k = n).
Proof.
  revert w. induction n as [|n IH]; intros w Hl Hu.
  - exists O, false. cbn. repeat split; try lia; discriminate.
  - rewrite home_loop_step by assumption.
    destruct (attempt_run hw clock v w) as (_ & _ & Hwaits).
    pose proof (attempt_self hw v w) as Hself.
    assert (Hc : counts (self (attempt hw v w)) = counts (self w) + int v).
    { rewrite Hself. unfold commanded. cbn. rewrite clamp_no_limits by assumption.
      reflexivity. }
    destruct (negb (level_at hw 1 v w =? initial)).
    + exists 1%nat, true. cbn [fst snd]. rewrite Hc, Hwaits.
      repeat split; try lia; discriminate.
    + destruct (IH (attempt hw v w)) as (k & found & E & Hk & Hcounts & Hw & Ht & Hf).
      { rewrite Hself. exact Hl. }
      { rewrite Hself. exact Hu. }
      exists (S k), found. rewrite E, Hcounts, Hw, Hc, Hwaits.
      repeat split; try lia. intros Hfalse. rewrite (Hf Hfalse). reflexivity.
Qed.

(** X18.  With the clock configured, a home pin bound and no limits
    set, [home] returns, and it has made a whole number [k] of blocking
    moves of the increment, at most [max_tries]: the position has
    advanced by exactly [k] increments.  When it returns [True],
    [k] is at least 1; when it returns [False], [k] is [max_tries]. *)
Theorem home_travel (increment_ : num) (max_tries : Z) (w : world) :
  home_reg (self w) <> "" ->
  lim_lower (self w) = None -> lim_upper (self w) = None ->
  exists (k : nat) (found : bool),
    fst (home hw increment_ max_tries w) = Ok found /\
    (k <= Z.to_nat max_tries)%nat /\
    counts (self (snd (home hw increment_ max_tries w))) =
      counts (self w) + Z.of_nat k * int increment_ /\
    waits (io (snd (home hw increment_ max_tries w))) = (waits (io w) + k)%nat /\
    (found = true -> (1 <= k)%nat) /\
    (found = false -> k = Z.to_nat max_tries).
Proof.
  intros Hbound Hl Hu.
  unfold home, mbind, M_bind. cbn [get_self fst snd].
  apply String.eqb_neq in Hbound. rewrite Hbound. cbn [eReadName fst snd].
  apply (home_loop_travel increment_ _ (Z.to_nat max_tries)
           (mkWorld (self w) (EvRead (home_reg (self w)) (hw (io w) (home_reg (self w)))
                                :: io w))); assumption.
Qed.

End HomeTravel.

(** The scenario of X18: the polarizer homing by steps of 5. *)
Lemma home_travel_witness :
  clock_ok sim_hw /\
  home_reg (self polarizer) <> "" /\
  exists (k : nat) (found : bool),
    fst (home sim_hw (Int 5) 10 polarizer) = Ok found /\
    (k <= Z.to_nat 10)%nat /\
    counts (self (snd (home sim_hw (Int 5) 10 polarizer))) =
      counts (self polarizer) + Z.of_nat k * int (Int 5) /\
    waits (io (snd (home sim_hw (Int 5) 10 polarizer))) = (waits (io polarizer) + k)%nat /\
    (found = true -> (1 <= k)%nat) /\
    (found = false -> k = Z.to_nat 10).
Proof.
  assert (Hb : home_reg (self polarizer) <> "") by (vm_compute; discriminate).
  split; [apply sim_clock_ok|]. split; [exact Hb|].
  apply (home_travel sim_hw sim_clock_ok (Int 5) 10 polarizer Hb); reflexivity.
Defined.
